(** * object-template-validator: a shallow embedding and its properties

    The module [lib/object-template-validator.js] validates a JavaScript
    object against a template built from predicate wrappers ([opt],
    [nullable], [obj], [recObj], [arr], [hash], [and], [or], [choice],
    [isISODate]) and keeps, in a module-level array [messages], the
    mismatch records emitted during the last [validateObject] call.

    JavaScript objects, arrays and functions are reference values: the
    embedding keeps them in a store of cells addressed by locations, so
    that the in-place updates of [recObj] and the sharing between a
    template and the closures built from it are visible.  Calls are
    evaluated by a fuel-indexed interpreter over an exception/state monad.

    Scope of the model: numbers are integers (array lengths and item
    bounds are the only numbers the module computes with, so [NaN] and
    fractions are left out); strings are sequences of bytes; every object
    cell is a plain object (no class instances, no wrapper objects);
    predicates supplied by the host return booleans.  The package
    [congruence], which the module calls for the comparison itself, is not
    part of the sources: its two entry points are modelled from the
    specification and marked as such. *)

From Stdlib Require Import ZArith Lia Bool String Ascii List DecimalString
  DecimalNat.
From stdpp Require Import base list strings.

Local Open Scope string_scope.
Local Open Scope list_scope.

(** ** Regular expressions of [isISODate]

    The matcher follows the continuation style of the ECMAScript
    specification: [m r s k] matches a prefix of [s] against [r] and
    hands the rest to the continuation [k]. *)
Module Regexp.

Inductive regex : Type :=
| Eps                             (* the empty pattern *)
| Lit (c : ascii)                 (* a literal (possibly escaped) character *)
| Digit                           (* \d *)
| Cat (r1 r2 : regex)             (* r1 r2 *)
| Repeat (n : nat) (r : regex)    (* r{n} *)
| Optional (r : regex).           (* (r)? *)

Definition is_digit (c : ascii) : bool :=
  let n := nat_of_ascii c in (48 <=? n)%nat && (n <=? 57)%nat.

Fixpoint iter_m (step : string -> (string -> bool) -> bool) (n : nat)
    (s : string) (k : string -> bool) : bool :=
  match n with
  | O => k s
  | S n' => step s (fun s' => iter_m step n' s' k)
  end.

Fixpoint m (r : regex) (s : string) (k : string -> bool) : bool :=
  match r with
  | Eps => k s
  | Lit c =>
      match s with
      | String c' s' => if Ascii.eqb c c' then k s' else false
      | EmptyString => false
      end
  | Digit =>
      match s with
      | String c' s' => if is_digit c' then k s' else false
      | EmptyString => false
      end
  | Cat r1 r2 => m r1 s (fun s' => m r2 s' k)
  | Repeat n r1 => iter_m (m r1) n s k
  | Optional r1 => if m r1 s k then true else k s
  end.

Definition at_end (s : string) : bool :=
  match s with EmptyString => true | String _ _ => false end.

(** [/^ r $/.test(s)]: both ends are anchored (without the [m] flag [$]
    only matches at the end of the input). *)
Definition test (r : regex) (s : string) : bool := m r s at_end.

Fixpoint seq (rs : list regex) : regex :=
  match rs with
  | [] => Eps
  | r :: rs' => Cat r (seq rs')
  end.

(** The language of a regex, stated independently of the matcher. *)
Fixpoint power (L : string -> Prop) (n : nat) (s : string) : Prop :=
  match n with
  | O => s = EmptyString
  | S n' => exists s1 s2, s = s1 +:+ s2 /\ L s1 /\ power L n' s2
  end.

Fixpoint lang (r : regex) (s : string) : Prop :=
  match r with
  | Eps => s = EmptyString
  | Lit c => s = String c EmptyString
  | Digit => exists c, is_digit c = true /\ s = String c EmptyString
  | Cat r1 r2 => exists s1 s2, s = s1 +:+ s2 /\ lang r1 s1 /\ lang r2 s2
  | Repeat n r1 => power (lang r1) n s
  | Optional r1 => lang r1 s \/ s = EmptyString
  end.

End Regexp.

(** ** Values, store and mismatch records *)

Definition loc := nat.

Inductive value : Type :=
| VUndefined
| VNull
| VBool (b : bool)
| VNum (n : Z)
| VStr (s : string)
| VRef (l : loc).       (* a plain object, an array or a function *)

(** The bodies of the function values that can occur in a template, with
    the variables each one captures. [Native] stands for a predicate
    supplied from outside the module (lodash's [_.isString] and the like):
    a total, side-effect free test of the value it is given, with a
    boolean result.  The bounds of [arr] and [hash] are numbers;
    [minItems] is stored after its default was applied and a missing
    [maxItems] ([undefined]) is [None]. *)
Inductive closure : Type :=
| Native (test : value -> bool)
| Coptional (func : value)
| Cnullable (func : value)
| Cexists
| Cobject (template loose : value)
| Carray (obj1 : loc) (loose : value)
| Carr (func : value) (minItems : Z) (maxItems : option Z)
| Chash (func : value) (minItems : Z) (maxItems : option Z)
| Cand (funcs : list value)
| Cor (funcs : list value)
| Cchoice (options : value)
| CisISODate.

(** A function object: its [name], its body and the two properties the
    module attaches to the functions it builds ([f.args] and
    [f.extraDebugArgs]; [None] when the property is absent). *)
Record func : Type := mkFunc {
  fname : string;
  code : closure;
  fargs : option (list value);
  extraDebugArgs : option (list value)
}.

(** The own properties of a plain object are kept in the order in which
    [for in] and [_.keys] enumerate them. *)
Inductive cell : Type :=
| Obj (props : list (string * value))   (* own properties, in enumeration order *)
| Arr (items : list value)
| Fun (f : func).

(** The [info] objects passed to the two listeners, after
    [_.extend(info, {type: ...})]. *)
Inductive message : Type :=
| InvalidKeys (templateKeys objectKeys : list string)           (* type 'invalid:keys' *)
| InvalidValue (key : string) (templateNode objectNode : value). (* type 'invalid:value' *)

Record state : Type := mkState {
  heap : list cell;
  messages : list message       (* the module variable [messages] *)
}.

Inductive exn : Type :=
| Thrown (msg : string)   (* throw '...' *)
| TypeError.              (* raised by the runtime, e.g. calling a non-function *)

Inductive result (A : Type) : Type :=
| Ret (a : A) (s : state)
| Throw (e : exn) (s : state)
| OutOfFuel.
Arguments Ret {A} a s.
Arguments Throw {A} e s.
Arguments OutOfFuel {A}.

Definition M (A : Type) : Type := state -> result A.

Definition ret {A} (a : A) : M A := fun s => Ret a s.
Definition throw {A} (e : exn) : M A := fun s => Throw e s.
Definition bind {A B} (c : M A) (k : A -> M B) : M B :=
  fun s => match c s with
           | Ret a s' => k a s'
           | Throw e s' => Throw e s'
           | OutOfFuel => OutOfFuel
           end.

Declare Scope js_scope.
Delimit Scope js_scope with js.
Notation "'let!' x ':=' c 'in' k" := (bind c (fun x => k))
  (at level 10, x name, c at level 100, k at level 200) : js_scope.
Notation "'do!' c 'in' k" := (bind c (fun _ => k))
  (at level 10, c at level 100, k at level 200) : js_scope.
Local Open Scope js_scope.

Definition get_heap : M (list cell) := fun s => Ret (heap s) s.
Definition alloc (c : cell) : M loc :=
  fun s => Ret (length (heap s)) (mkState (heap s ++ [c]) (messages s)).
Definition store (l : loc) (c : cell) : M unit :=
  fun s => Ret tt (mkState (<[l := c]> (heap s)) (messages s)).
(** [emitter.emit(...)] with the listeners of the module: the record is
    pushed on [messages]. *)
Definition emit (msg : message) : M unit :=
  fun s => Ret tt (mkState (heap s) (messages s ++ [msg])).
Definition clear_messages : M unit :=
  fun s => Ret tt (mkState (heap s) []).

(** ** Primitive tests and property access *)

Definition isUndefined (v : value) : bool :=
  match v with VUndefined => true | _ => false end.
Definition isNull (v : value) : bool :=
  match v with VNull => true | _ => false end.
Definition isString (v : value) : bool :=
  match v with VStr _ => true | _ => false end.
Definition isNumber (v : value) : bool :=
  match v with VNum _ => true | _ => false end.

Definition cell_at (h : list cell) (v : value) : option cell :=
  match v with VRef l => h !! l | _ => None end.

Definition isPlainObject (h : list cell) (v : value) : bool :=
  match cell_at h v with Some (Obj _) => true | _ => false end.
Definition isArray (h : list cell) (v : value) : bool :=
  match cell_at h v with Some (Arr _) => true | _ => false end.
Definition isFunction (h : list cell) (v : value) : bool :=
  match cell_at h v with Some (Fun _) => true | _ => false end.

Definition truthy (v : value) : bool :=
  match v with
  | VUndefined | VNull => false
  | VBool b => b
  | VNum n => negb (n =? 0)%Z
  | VStr s => negb (String.eqb s EmptyString)
  | VRef _ => true
  end.

(** [a === b] *)
Definition strict_equal (a b : value) : bool :=
  match a, b with
  | VUndefined, VUndefined => true
  | VNull, VNull => true
  | VBool x, VBool y => Bool.eqb x y
  | VNum x, VNum y => (x =? y)%Z
  | VStr x, VStr y => String.eqb x y
  | VRef x, VRef y => (x =? y)%nat
  | _, _ => false
  end.

Fixpoint get_prop (props : list (string * value)) (key : string) : value :=
  match props with
  | [] => VUndefined
  | (k, v) :: rest => if String.eqb k key then v else get_prop rest key
  end.

Fixpoint set_prop (props : list (string * value)) (key : string) (v : value)
    : list (string * value) :=
  match props with
  | [] => [(key, v)]
  | (k, w) :: rest =>
      if String.eqb k key then (k, v) :: rest else (k, w) :: set_prop rest key v
  end.

(** [_.keys(o)] of a plain object (no keys for anything else). *)
Definition own_keys (h : list cell) (o : value) : list string :=
  match cell_at h o with Some (Obj props) => map fst props | _ => [] end.

Definition array_items (h : list cell) (a : value) : list value :=
  match cell_at h a with Some (Arr items) => items | _ => [] end.

(** [o[key]] for a plain object [o]. *)
Definition get_member (o : value) (key : string) : M value :=
  fun s => match cell_at (heap s) o with
           | Some (Obj props) => Ret (get_prop props key) s
           | _ => Ret VUndefined s
           end.

(** [o[key] = v] for a plain object [o]. *)
Definition set_member (o : value) (key : string) (v : value) : M unit :=
  fun s => match o, cell_at (heap s) o with
           | VRef l, Some (Obj props) => store l (Obj (set_prop props key v)) s
           | _, _ => Ret tt s
           end.

(** ['' + i] *)
Definition index_key (i : nat) : string := NilZero.string_of_uint (Nat.to_uint i).

(** The conversion loop [for (i = 0; i < a.length; i++) o['' + i] = a[i]]. *)
Definition indexed (items : list value) : list (string * value) :=
  imap (fun i v => (index_key i, v)) items.

(** ** The wrappers

    Each wrapper builds a function object and returns a reference to it.
    Wrappers whose parameters are arbitrary values receive the
    [arguments] list of the call; a missing argument reads as
    [undefined]. *)

Definition arg (i : nat) (arguments : list value) : value :=
  nth i arguments VUndefined.

Definition new_function (name : string) (c : closure)
    (args extra : option (list value)) : M value :=
  let! l := alloc (Fun (mkFunc name c args extra)) in ret (VRef l).

(** A predicate of the host (for instance [_.isString]) as a function
    object. *)
Definition native (name : string) (test : value -> bool) : M value :=
  new_function name (Native test) None None.

Definition opt (arguments : list value) : M value :=
  new_function "optional" (Coptional (arg 0 arguments)) (Some arguments) None.

Definition nullable (arguments : list value) : M value :=
  new_function "nullable" (Cnullable (arg 0 arguments)) (Some arguments) None.

Definition exists_ (arguments : list value) : M value :=
  new_function "exists" Cexists (Some arguments) None.

Definition obj (arguments : list value) : M value :=
  new_function "object" (Cobject (arg 0 arguments) (arg 1 arguments))
    (Some arguments) None.

(** [minItems] and [maxItems] are numbers or [undefined] ([None]). The
    assignment [minItems = 0] of the default is visible through
    [arguments] when the argument was passed. *)
Definition bounds_arguments (func : value) (minItems : Z) (maxItems : option Z)
    (passed : bool) : list value :=
  match maxItems with
  | Some mx => [func; VNum minItems; VNum mx]
  | None => if passed then [func; VNum minItems] else [func]
  end.

Definition default_min (minItems : option Z) : Z :=
  match minItems with None => 0%Z | Some n => n end.

Definition arr (func : value) (minItems maxItems : option Z) : M value :=
  let passed := match minItems with Some _ => true | None => false end in
  let minItems := default_min minItems in
  new_function "arr" (Carr func minItems maxItems)
    (Some (bounds_arguments func minItems maxItems passed)) None.

Definition hash (func : value) (minItems maxItems : option Z) : M value :=
  let passed := match minItems with Some _ => true | None => false end in
  let minItems := default_min minItems in
  new_function "hash" (Chash func minItems maxItems)
    (Some (bounds_arguments func minItems maxItems passed)) None.

Definition and_ (arguments : list value) : M value :=
  new_function "and" (Cand arguments) (Some arguments) None.

Definition or_ (arguments : list value) : M value :=
  new_function "or" (Cor arguments) (Some arguments) None.

Definition choice (arguments : list value) : M value :=
  new_function "choice" (Cchoice (arg 0 arguments)) (Some arguments) None.

(** ** isISODate *)

(** [/^\d{4}\-\d{2}\-\d{2}T\d{2}:\d{2}:\d{2}\.\d{3}Z(\+\d{2}:\d{2})?$/] *)
Definition iso_regexp : Regexp.regex :=
  Regexp.seq
    [Regexp.Repeat 4 Regexp.Digit; Regexp.Lit "-";
     Regexp.Repeat 2 Regexp.Digit; Regexp.Lit "-";
     Regexp.Repeat 2 Regexp.Digit; Regexp.Lit "T";
     Regexp.Repeat 2 Regexp.Digit; Regexp.Lit ":";
     Regexp.Repeat 2 Regexp.Digit; Regexp.Lit ":";
     Regexp.Repeat 2 Regexp.Digit; Regexp.Lit ".";
     Regexp.Repeat 3 Regexp.Digit; Regexp.Lit "Z";
     Regexp.Optional
       (Regexp.seq
          [Regexp.Lit "+"; Regexp.Repeat 2 Regexp.Digit; Regexp.Lit ":";
           Regexp.Repeat 2 Regexp.Digit])].

Definition isISODate (value : value) : bool :=
  match value with
  | VStr s => Regexp.test iso_regexp s
  | _ => false
  end.

(** [isISODate] as a template leaf; its [name] is the one inferred from
    the variable the function expression is assigned to. *)
Definition isISODate_function : M value :=
  new_function "isISODate" CisISODate None None.

(** ** The interpreter

    One unit of fuel is spent by every call of a function value, of the
    congruence engine and of [recObj]. [interp] collects the mutually
    recursive entry points; [step] gives their bodies over the entry
    points with one unit less, so that a computation that needs more
    calls than the fuel allows ends in [OutOfFuel]. *)

Record interp : Type := mkInterp {
  i_call : value -> value -> M bool;        (* f(v) *)
  i_similar : value -> value -> M bool;     (* congruence.similar(template, object, emitter) *)
  i_congruent : value -> value -> M bool;   (* congruence.congruent(template, object, emitter) *)
  i_recObj : value -> value -> M value      (* recObj(template, loose) *)
}.

Definition bottom : interp :=
  mkInterp (fun _ _ _ => OutOfFuel) (fun _ _ _ => OutOfFuel)
           (fun _ _ _ => OutOfFuel) (fun _ _ _ => OutOfFuel).

Section Bodies.
Variable rec : interp.

(** [_.every(list, func)] *)
Fixpoint every (list : list value) (func : value) : M bool :=
  match list with
  | [] => ret true
  | x :: rest =>
      let! b := i_call rec func x in
      if b then every rest func else ret false
  end.

(** [_.each(list, function(value) { if (!func(value)) valid = false; })]
    over the values of a plain object: every value is visited. *)
Fixpoint each_valid (values : list value) (func : value) (valid : bool) : M bool :=
  match values with
  | [] => ret valid
  | x :: rest =>
      let! b := i_call rec func x in
      each_valid rest func (if b then valid else false)
  end.

(** The loop of [and]. *)
Fixpoint and_loop (funcs : list value) (value : value) : M bool :=
  match funcs with
  | [] => ret true
  | f :: rest =>
      let! b := i_call rec f value in
      if b then and_loop rest value else ret false
  end.

(** The loop of [or]. *)
Fixpoint or_loop (funcs : list value) (value : value) : M bool :=
  match funcs with
  | [] => ret false
  | f :: rest =>
      let! b := i_call rec f value in
      if b then ret true else or_loop rest value
  end.

Definition in_bounds (length : nat) (minItems : Z) (maxItems : option Z) : bool :=
  (minItems <=? Z.of_nat length)%Z
  && match maxItems with
     | None => true
     | Some mx => (Z.of_nat length <=? mx)%Z
     end.

(** The body of a function value applied to [v]. *)
Definition apply_closure (c : closure) (v : value) : M bool :=
  match c with
  | Native test => ret (test v)
  | Coptional func =>
      if isUndefined v then ret true else i_call rec func v
  | Cnullable func =>
      if isNull v then ret true else i_call rec func v
  | Cexists => ret (negb (isUndefined v))
  | Cobject template loose =>
      let! h := get_heap in
      if negb (isPlainObject h v) then ret false
      else if truthy loose then i_similar rec template v
      else i_congruent rec template v
  | Carray obj1 loose =>
      let! h := get_heap in
      if negb (isArray h v) then ret false
      else
        let! obj2 := alloc (Obj (indexed (array_items h v))) in
        let! f := i_recObj rec (VRef obj1) loose in
        i_call rec f (VRef obj2)
  | Carr func minItems maxItems =>
      let! h := get_heap in
      if negb (isArray h v) then ret false
      else
        let list := array_items h v in
        if in_bounds (length list) minItems maxItems
        then every list func else ret false
  | Chash func minItems maxItems =>
      let! h := get_heap in
      if negb (isPlainObject h v) then ret false
      else
        let keys := own_keys h v in
        if negb (in_bounds (length keys) minItems maxItems) then ret false
        else
          match cell_at h v with
          | Some (Obj props) => each_valid (map snd props) func true
          | _ => ret false
          end
  | Cand funcs => and_loop funcs v
  | Cor funcs => or_loop funcs v
  | Cchoice options =>
      (* options.indexOf(value) != -1, for an array [options] *)
      let! h := get_heap in
      if isArray h options
      then ret (existsb (fun o => strict_equal o v) (array_items h options))
      else throw TypeError
  | CisISODate => ret (isISODate v)
  end.

Definition call_body (f v : value) : M bool :=
  let! h := get_heap in
  match cell_at h f with
  | Some (Fun fn) => apply_closure (code fn) v
  | _ => throw TypeError
  end.

(** *** The congruence engine

    The functions [similar] and [congruent] belong to the package
    [congruence], which the module requires and whose code is not part of
    the sources.  They are modelled from the state machine of the
    specification: a candidate that is not a plain map fails without a
    record; the key sets are compared and a difference emits a key-set
    record; then the template keys are visited in order and the first
    predicate that fails emits a value record and fails the call. *)

(** Every key of [ks1] is a key of [ks2]. *)
Definition keys_subset (ks1 ks2 : list string) : bool :=
  forallb (fun k => existsb (String.eqb k) ks2) ks1.

(** Modelled from the spec: the key-set test of the engine (package
    [congruence], not in the sources): the two key sets are identical in
    exact mode; in loose mode no template key is missing from the
    object. *)
Definition key_sets_match (loose : bool) (templateKeys objectKeys : list string)
    : bool :=
  if loose then keys_subset templateKeys objectKeys
  else keys_subset templateKeys objectKeys && keys_subset objectKeys templateKeys.

(** Modelled from the spec: the test of one template key by the engine
    (package [congruence], not in the sources): a nested map template
    recurses on the sub-object in the same mode; a predicate is called on
    the object's value and a false result emits a value record; a leaf
    that is neither a map nor a predicate is compared with [===]. *)
Definition test_node (loose : bool) (key : string)
    (templateNode objectNode : value) : M bool :=
  let! h := get_heap in
  if isPlainObject h templateNode then
    (if loose then i_similar rec else i_congruent rec) templateNode objectNode
  else
    let! ok := (if isFunction h templateNode
                then i_call rec templateNode objectNode
                else ret (strict_equal templateNode objectNode)) in
    if ok then ret true
    else do! emit (InvalidValue key templateNode objectNode) in ret false.

(** Modelled from the spec: the visit of the template keys by the engine
    (package [congruence], not in the sources), in the template's order,
    stopping at the first key that fails. *)
Fixpoint test_keys (loose : bool) (template object : value)
    (keys : list string) : M bool :=
  match keys with
  | [] => ret true
  | key :: rest =>
      let! templateNode := get_member template key in
      let! objectNode := get_member object key in
      let! ok := test_node loose key templateNode objectNode in
      if ok then test_keys loose template object rest else ret false
  end.

(** Modelled from the spec: [congruence.similar] ([loose] true) and
    [congruence.congruent] ([loose] false) with the module's emitter; the
    package [congruence] is not in the sources. *)
Definition congruence_body (loose : bool) (template object : value) : M bool :=
  let! h := get_heap in
  if negb (isPlainObject h object) then ret false
  else
    let templateKeys := own_keys h template in
    let objectKeys := own_keys h object in
    if negb (key_sets_match loose templateKeys objectKeys)
    then do! emit (InvalidKeys templateKeys objectKeys) in ret false
    else test_keys loose template object templateKeys.

(** The body of the loop of [recObj] for one own key of [template]. *)
Definition recObj_key (template loose : value) (key : string) : M unit :=
  let! v := get_member template key in
  let! h := get_heap in
  if isPlainObject h v then
    let! f := i_recObj rec v loose in
    set_member template key f
  else if isArray h v then
    let templateValues := v in
    let! obj1 := alloc (Obj (indexed (array_items h templateValues))) in
    let! f := new_function "array" (Carray obj1 loose) None
                (Some [templateValues]) in
    set_member template key f
  else ret tt.

Fixpoint recObj_keys (template loose : value) (keys : list string) : M unit :=
  match keys with
  | [] => ret tt
  | key :: rest =>
      do! recObj_key template loose key in
      recObj_keys template loose rest
  end.

Definition recObj_body (template loose : value) : M value :=
  let! h := get_heap in
  if negb (isPlainObject h template)
  then throw (Thrown "recObj must be called on a plain object")
  else
    do! recObj_keys template loose (own_keys h template) in
    obj [template; loose].
End Bodies.

Definition step (rec : interp) : interp :=
  mkInterp (call_body rec) (congruence_body rec true)
           (congruence_body rec false) (recObj_body rec).

Fixpoint interp_at (fuel : nat) : interp :=
  match fuel with
  | O => bottom
  | S n => step (interp_at n)
  end.

Definition call (fuel : nat) : value -> value -> M bool := i_call (interp_at fuel).
Definition similar (fuel : nat) : value -> value -> M bool :=
  i_similar (interp_at fuel).
Definition congruent (fuel : nat) : value -> value -> M bool :=
  i_congruent (interp_at fuel).
Definition recObj (fuel : nat) : value -> value -> M value :=
  i_recObj (interp_at fuel).

(** ** validateObject and the collected messages *)

Definition validateObject (fuel : nat) (template object loose recursive : value)
    : M bool :=
  do! clear_messages in
  let! h := get_heap in
  if negb (isPlainObject h object) then ret false
  else if truthy recursive then
    let! f := recObj fuel template loose in
    call fuel f object
  else if truthy loose then similar fuel template object
  else congruent fuel template object.

Definition getMessages (s : state) : list message := messages s.

(** ** Descriptions *)

Fixpoint map_option {A B} (f : A -> option B) (l : list A) : option (list B) :=
  match l with
  | [] => Some []
  | x :: rest =>
      match f x, map_option f rest with
      | Some y, Some ys => Some (y :: ys)
      | _, _ => None
      end
  end.

(** [_.difference(a, b)] *)
Definition difference (a b : list string) : list string :=
  List.filter (fun x => negb (existsb (String.eqb x) b)) a.

Definition join (sep : string) (items : list string) : string :=
  String.concat sep items.

Section Description.
(** [JSON.stringify], a built-in of the runtime. *)
Variable JSON_stringify : list cell -> value -> string.

(** [None] when the fuel does not cover the nesting of the template. *)
Fixpoint getTemplateDescription (fuel : nat) (h : list cell) (template : value)
    : option string :=
  match fuel with
  | O => None
  | S n =>
      match cell_at h template with
      | Some (Fun f) =>
          if negb (String.eqb (fname f) EmptyString) then
            let args := match fargs f with Some a => a | None => [] end in
            let args := match extraDebugArgs f with
                        | Some e => args ++ e
                        | None => args
                        end in
            match map_option (getTemplateDescription n h) args with
            | Some items => Some (fname f +:+ "(" +:+ join "," items +:+ ")")
            | None => None
            end
          else Some (JSON_stringify h template)
      | Some (Obj props) =>
          match map_option
                  (fun key =>
                     match getTemplateDescription n h (get_prop props key) with
                     | Some d => Some (key +:+ ": " +:+ d)
                     | None => None
                     end) (map fst props) with
          | Some items => Some ("{" +:+ join "," items +:+ "}")
          | None => None
          end
      | Some (Arr elems) =>
          match map_option (getTemplateDescription n h) elems with
          | Some items => Some ("[" +:+ join "," items +:+ "]")
          | None => None
          end
      | None => Some (JSON_stringify h template)
      end
  end.

(** The [switch] of [getInvalidDescription]. *)
Definition describe (fuel : nat) (h : list cell) (lastMessage : message)
    : option string :=
  match lastMessage with
  | InvalidKeys templateKeys objectKeys =>
      Some ("invalid keys, expecting [" +:+ join "," templateKeys
            +:+ "] but got [" +:+ join "," objectKeys
            +:+ "] (unexpected: ["
            +:+ join "," (difference objectKeys templateKeys)
            +:+ "]) (missing: ["
            +:+ join "," (difference templateKeys objectKeys) +:+ "])")
  | InvalidValue key templateNode objectNode =>
      match getTemplateDescription fuel h templateNode with
      | Some desc =>
          Some ("invalid value for key '" +:+ key +:+ "': '"
                +:+ JSON_stringify h objectNode +:+ "'"
                +:+ "; expectation: " +:+ desc)
      | None => None
      end
  end.

(** [Some None] is the result [null]; [None] means that the fuel was
    too small to describe the template node. *)
Definition getInvalidDescription (fuel : nat) (s : state)
    : option (option string) :=
  match getMessages s with
  | [] => Some None
  | lastMessage :: _ =>
      match describe fuel (heap s) lastMessage with
      | Some message => Some (Some message)
      | None => None
      end
  end.
End Description.

(** ** Literals

    Object and array literals allocate a fresh cell. *)

Definition new_object (props : list (string * value)) : M value :=
  let! l := alloc (Obj props) in ret (VRef l).

Definition new_array (items : list value) : M value :=
  let! l := alloc (Arr items) in ret (VRef l).

Definition empty_state : state := mkState [] [].

(** ** Notions used by the statements *)

(** The state in which a computation ends, when it ends. *)
Definition final_state {A} (r : result A) : option state :=
  match r with
  | Ret _ s => Some s
  | Throw _ s => Some s
  | OutOfFuel => None
  end.

(** Stores all of whose function objects have a body accepted by [ok]. *)
Definition cell_ok (ok : closure -> bool) (c : cell) : bool :=
  match c with
  | Fun f => ok (code f)
  | _ => true
  end.

Definition heap_ok (ok : closure -> bool) (h : list cell) : bool :=
  forallb (cell_ok ok) h.

Definition is_array_matcher (c : closure) : bool :=
  match c with Carray _ _ => true | _ => false end.
Definition is_object_matcher (c : closure) : bool :=
  match c with Cobject _ _ => true | _ => false end.
Definition is_or (c : closure) : bool :=
  match c with Cor _ => true | _ => false end.

(** No array matcher of [recObj] is stored. *)
Definition array_free (h : list cell) : bool :=
  heap_ok (fun c => negb (is_array_matcher c)) h.
(** No function built by [or] is stored. *)
Definition or_free (h : list cell) : bool :=
  heap_ok (fun c => negb (is_or c)) h.
(** No function that runs the engine ([obj], [recObj]) is stored. *)
Definition matcher_free (h : list cell) : bool :=
  heap_ok (fun c => negb (is_array_matcher c) && negb (is_object_matcher c)) h.

(** [digits n s]: the string [s] consists of exactly [n] decimal digits. *)
Fixpoint digits (n : nat) (s : string) : Prop :=
  match n, s with
  | O, EmptyString => True
  | S n', String c s' => Regexp.is_digit c = true /\ digits n' s'
  | _, _ => False
  end.

(** [YYYY-MM-DDTHH:MM:SS.mmmZ] *)
Definition iso_timestamp (s : string) : Prop :=
  exists year month day hour minute second milli,
    digits 4 year /\ digits 2 month /\ digits 2 day /\
    digits 2 hour /\ digits 2 minute /\ digits 2 second /\ digits 3 milli /\
    s = year +:+ "-" +:+ month +:+ "-" +:+ day +:+ "T" +:+ hour +:+ ":"
        +:+ minute +:+ ":" +:+ second +:+ "." +:+ milli +:+ "Z".

(** An offset [sHH:MM] whose sign [s] is one of [signs]. *)
Definition iso_offset (signs : list ascii) (s : string) : Prop :=
  exists sign hour minute,
    In sign signs /\ digits 2 hour /\ digits 2 minute /\
    s = String sign (hour +:+ ":" +:+ minute).

(** The form stated for [isISODate]: a timestamp, optionally followed by
    an offset whose sign is one of [signs]. *)
Definition iso_date_form (signs : list ascii) (s : string) : Prop :=
  iso_timestamp s \/
  exists stamp offset,
    iso_timestamp stamp /\ iso_offset signs offset /\ s = stamp +:+ offset.

(** Value-equality, in the words of the specification of [choice]: two
    values are equal when they are the same primitive, or objects with the
    same keys and equal values, or arrays with equal items (functions are
    compared by reference). *)
Fixpoint value_equal (fuel : nat) (h : list cell) (a b : value) : bool :=
  match fuel with
  | O => false
  | S n =>
      match cell_at h a, cell_at h b with
      | Some (Obj pa), Some (Obj pb) =>
          keys_subset (map fst pa) (map fst pb)
          && keys_subset (map fst pb) (map fst pa)
          && forallb (fun k => value_equal n h (get_prop pa k) (get_prop pb k))
               (map fst pa)
      | Some (Arr ia), Some (Arr ib) =>
          (length ia =? length ib)%nat
          && forallb (fun p => value_equal n h (fst p) (snd p)) (combine ia ib)
      | Some (Obj _), _ | Some (Arr _), _ | _, Some (Obj _) | _, Some (Arr _) =>
          false
      | _, _ => strict_equal a b
      end
  end.

(** A plain-object template none of whose values is a literal map or a
    literal array. *)
Definition is_literal (h : list cell) (v : value) : bool :=
  isPlainObject h v || isArray h v.

Definition flat_template (h : list cell) (template : value) : bool :=
  match cell_at h template with
  | Some (Obj props) => forallb (fun kv => negb (is_literal h (snd kv))) props
  | _ => false
  end.

(** ** Example programs *)

(** The template [{a: {b: 1}}]. *)
Definition nested_literal_template : M value :=
  let! inner := new_object [("b", VNum 1)] in
  new_object [("a", inner)].

(** [validateObject({a: {b: 1}}, {a: {b: 1}}, undefined, true)], returning
    the template with the result. *)
Definition recursive_validation_example : M (value * bool) :=
  let! template := nested_literal_template in
  let! inner := new_object [("b", VNum 1)] in
  let! object := new_object [("a", inner)] in
  let! result := validateObject 4 template object VUndefined (VBool true) in
  ret (template, result).

(** A store with [_.isString] (at 0), the template [{a: _.isString}]
    (at 1) and the objects [{a: "x"}] (at 2), [{a: "x", b: 1}] (at 3) and
    [{b: 1}] (at 4). *)
Definition flat_example_state : state :=
  mkState
    [Fun (mkFunc "isString" (Native isString) None None);
     Obj [("a", VRef 0)];
     Obj [("a", VStr "x")];
     Obj [("a", VStr "x"); ("b", VNum 1)];
     Obj [("b", VNum 1)]]
    [].

(** [arr(_.isString, 1, 3)(items)] for an array literal [items]. *)
Definition arr_example (items : list value) : M bool :=
  let! isString := native "isString" isString in
  let! f := arr isString (Some 1%Z) (Some 3%Z) in
  let! a := new_array items in
  call 2 f a.

(** A store with [_.isString] (at 0) and the array [["a", "b"]] (at 1). *)
Definition arr_example_state : state :=
  mkState [Fun (mkFunc "isString" (Native isString) None None);
           Arr [VStr "a"; VStr "b"]] [].

(** The state after [arr(_.isString, 1, 3)] in [arr_example_state]: the new
    function is at 2. *)
Definition arr_example_state' : state :=
  mkState (heap arr_example_state
           ++ [Fun (mkFunc "arr" (Carr (VRef 0) 1 (Some 3%Z))
                      (Some [VRef 0; VNum 1; VNum 3]) None)]) [].

(** [choice([{a: 1}])({a: 1})], with two object literals: the result is
    returned with the option and the value. *)
Definition choice_object_example : M (bool * value * value) :=
  let! option := new_object [("a", VNum 1)] in
  let! options := new_array [option] in
  let! f := choice [options] in
  let! v := new_object [("a", VNum 1)] in
  let! b := call 2 f v in
  ret (b, option, v).

(** [choice(['x', 'y'])(v)] *)
Definition choice_string_example (v : value) : M bool :=
  let! options := new_array [VStr "x"; VStr "y"] in
  let! f := choice [options] in
  call 2 f v.

(** [validateObject({k: or(obj({a: isString}), obj({b: isString}))},
    {k: {b: "x"}})] *)
Definition or_validation_example : M bool :=
  let! isString := native "isString" isString in
  let! t1 := new_object [("a", isString)] in
  let! o1 := obj [t1] in
  let! t2 := new_object [("b", isString)] in
  let! o2 := obj [t2] in
  let! f := or_ [o1; o2] in
  let! template := new_object [("k", f)] in
  let! inner := new_object [("b", VStr "x")] in
  let! object := new_object [("k", inner)] in
  validateObject 6 template object VUndefined VUndefined.

(** A candidate that shares the literal [e = {z: {}}] with the template:
    the template is [{c: obj({z: obj({})}), a: [e]}] and the candidate
    [{c: e, a: [{z: {}}]}]; it is validated twice with
    [recursive = true]. *)
Definition shared_literal_example : M (bool * bool) :=
  let! empty := new_object [] in
  let! e := new_object [("z", empty)] in
  let! t0 := new_object [] in
  let! p0 := obj [t0] in
  let! tz := new_object [("z", p0)] in
  let! p := obj [tz] in
  let! a := new_array [e] in
  let! template := new_object [("c", p); ("a", a)] in
  let! o0 := new_object [] in
  let! oz := new_object [("z", o0)] in
  let! oa := new_array [oz] in
  let! object := new_object [("c", e); ("a", oa)] in
  let! first := validateObject 12 template object VUndefined (VBool true) in
  let! second := validateObject 12 template object VUndefined (VBool true) in
  ret (first, second).

(** [validateObject({a: obj({b: isString})}, {a: {b: 1}})] *)
Definition nested_obj_validation_example : M bool :=
  let! isString := native "isString" isString in
  let! inner := new_object [("b", isString)] in
  let! o := obj [inner] in
  let! template := new_object [("a", o)] in
  let! oinner := new_object [("b", VNum 1)] in
  let! object := new_object [("a", oinner)] in
  validateObject 4 template object VUndefined VUndefined.

(** ** Notions used by the proofs and the remaining statements *)

(** A continuation-matcher accepts exactly the splits of the input into a
    word of the language and a rest accepted by the continuation. *)
Definition splits (L : string -> Prop) (s : string) (k : string -> bool) : Prop :=
  exists s1 s2, s = s1 +:+ s2 /\ L s1 /\ k s2 = true.

(** [ensures c s Q E]: started in [s], the computation [c] ends (if it
    ends) with a value and state in [Q], or an exception in a state in
    [E]. *)
Definition ensures {A} (c : M A) (s : state)
    (Q : A -> state -> Prop) (E : state -> Prop) : Prop :=
  match c s with
  | Ret a s' => Q a s'
  | Throw _ s' => E s'
  | OutOfFuel => True
  end.

Definition same_heap (s : state) : state -> Prop := fun s' => heap s' = heap s.

Definition keeps_heap {A} (c : M A) (s : state) : Prop :=
  ensures c s (fun _ => same_heap s) (same_heap s).

Record frame_spec (rec : interp) : Prop := mkFrameSpec {
  frame_call : forall f v s,
    array_free (heap s) = true -> keeps_heap (i_call rec f v) s;
  frame_similar : forall t o s,
    array_free (heap s) = true -> keeps_heap (i_similar rec t o) s;
  frame_congruent : forall t o s,
    array_free (heap s) = true -> keeps_heap (i_congruent rec t o) s
}.

Definition orf (s : state) : Prop := or_free (heap s) = true.

(** The outcome of a test started in [s]: nothing was emitted when the
    test succeeded. *)
Definition quiet (s : state) (b : bool) (s' : state) : Prop :=
  orf s' /\ (b = true -> messages s' = messages s).

(** The outcome of a step that emits nothing. *)
Definition calm {A} (s : state) (_ : A) (s' : state) : Prop :=
  orf s' /\ messages s' = messages s.

Record quiet_spec (rec : interp) : Prop := mkQuietSpec {
  quiet_call : forall f v s,
    orf s -> ensures (i_call rec f v) s (quiet s) orf;
  quiet_similar : forall t o s,
    orf s -> ensures (i_similar rec t o) s (quiet s) orf;
  quiet_congruent : forall t o s,
    orf s -> ensures (i_congruent rec t o) s (quiet s) orf;
  quiet_recObj : forall t loose s,
    orf s -> ensures (i_recObj rec t loose) s (calm s) orf
}.

Definition mfree (s : state) : Prop := matcher_free (heap s) = true.

(** The outcome of an engine run started in [s] when no predicate runs the
    engine itself: nothing changes on success, at most one record is
    added on failure. *)
Definition single (s : state) (b : bool) (s' : state) : Prop :=
  if b then s' = s
  else heap s' = heap s
       /\ (messages s' = messages s \/ exists m, messages s' = messages s ++ [m]).

Definition unchanged {A} (s : state) (_ : A) (s' : state) : Prop := s' = s.

Record single_spec (rec : interp) : Prop := mkSingleSpec {
  single_call : forall f v s,
    mfree s -> ensures (i_call rec f v) s (unchanged s) (eq s);
  single_similar : forall t o s,
    mfree s -> ensures (i_similar rec t o) s (single s) (eq s);
  single_congruent : forall t o s,
    mfree s -> ensures (i_congruent rec t o) s (single s) (eq s)
}.

(** Every plain object of [s] is still a plain object with the same keys
    in [s']. *)
Definition keeps_keys (s s' : state) : Prop :=
  forall (l : loc) props, heap s !! l = Some (Obj props) ->
    exists props', heap s' !! l = Some (Obj props')
                   /\ map fst props' = map fst props.

(** The outcome of [recObj(template, loose)] started in [s]: keys are
    kept, nothing is emitted and the result is the function built by
    [obj(template, loose)]. *)
Definition normalized (template loose : value) (s : state) (f : value)
    (s' : state) : Prop :=
  keeps_keys s s' /\ messages s' = messages s
  /\ exists fn, cell_at (heap s') f = Some (Fun fn)
                /\ code fn = Cobject template loose.

(** The candidate lacks a template key or, in exact mode, has a key that
    the template lacks. *)
Definition key_sets_differ (loose : value) (templateKeys objectKeys : list string)
    : Prop :=
  (exists k, In k templateKeys /\ ~ In k objectKeys)
  \/ (truthy loose = false /\ exists k, In k objectKeys /\ ~ In k templateKeys).

(** ** Notions used by the further properties *)

(** [f] is a function object whose body is [c]. *)
Definition is_closure (h : list cell) (f : value) (c : closure) : Prop :=
  exists fn, cell_at h f = Some (Fun fn) /\ code fn = c.

(** Called on [v] in the store [h], the function [func] returns [p v] and
    leaves the store as it is; it may emit records. *)
Definition decides (fuel : nat) (h : list cell) (func : value)
    (p : value -> bool) (v : value) : Prop :=
  forall msgs, exists msgs',
    call fuel func v (mkState h msgs) = Ret (p v) (mkState h msgs').

(** A store with [_.isString] (at 0), [_.isNumber] (at 1),
    [nullable(_.isString)] (at 2), [opt(nullable(_.isString))] (at 3),
    [opt(_.isString)] (at 4), [nullable(opt(_.isString))] (at 5),
    [exists()] (at 6), [opt(exists())] (at 7), [nullable(exists())]
    (at 8). *)
Definition wrappers_example : M unit :=
  let! isString := native "isString" isString in
  let! isNumber := native "isNumber" isNumber in
  let! n := nullable [isString] in
  let! o := opt [n] in
  let! o' := opt [isString] in
  let! n' := nullable [o'] in
  let! e := exists_ [] in
  let! oe := opt [e] in
  let! ne := nullable [e] in
  ret tt.

Definition wrappers_example_state : state :=
  match wrappers_example empty_state with
  | Ret _ s => s
  | _ => empty_state
  end.

(** A store with [_.isString] (at 0), [_.isNumber] (at 1),
    [and(isString, isNumber)] (at 2), [or(isString, isNumber)] (at 3),
    [and(isNumber, isString, 0)] (at 4), [or(isString, 0)] (at 5),
    [and(isString)] (at 6), [and(isNumber)] (at 7), the nested
    [and(and(isString), and(isNumber))] (at 8), [or(isString)] (at 9),
    [or(isNumber)] (at 10) and [or(or(isString), or(isNumber))] (at 11). *)
Definition logic_example : M unit :=
  let! isString := native "isString" isString in
  let! isNumber := native "isNumber" isNumber in
  let! a := and_ [isString; isNumber] in
  let! o := or_ [isString; isNumber] in
  let! a' := and_ [isNumber; isString; VNum 0] in
  let! o' := or_ [isString; VNum 0] in
  let! a1 := and_ [isString] in
  let! a2 := and_ [isNumber] in
  let! a12 := and_ [a1; a2] in
  let! o1 := or_ [isString] in
  let! o2 := or_ [isNumber] in
  let! o12 := or_ [o1; o2] in
  ret tt.

Definition logic_example_state : state :=
  match logic_example empty_state with
  | Ret _ s => s
  | _ => empty_state
  end.

(** [s'] comes after [s]: every function object and every array of [s]
    is the same in [s'], and every plain object of [s] is still a plain
    object with the same keys. *)
Definition evolves (s s' : state) : Prop :=
  forall (l : loc) c, heap s !! l = Some c ->
    match c with
    | Obj props =>
        exists props', heap s' !! l = Some (Obj props')
                       /\ map fst props' = map fst props
    | _ => heap s' !! l = Some c
    end.

(** The computation [c] started in [s] ends, if it ends, in a state that
    comes after [s]. *)
Definition advances {A} (c : M A) (s : state) : Prop :=
  ensures c s (fun _ => evolves s) (evolves s).

Record evolves_spec (rec : interp) : Prop := mkEvolvesSpec {
  evolves_call : forall f v s, advances (i_call rec f v) s;
  evolves_similar : forall t o s, advances (i_similar rec t o) s;
  evolves_congruent : forall t o s, advances (i_congruent rec t o) s;
  evolves_recObj : forall t loose s, advances (i_recObj rec t loose) s
}.

(** The store holding the template [{a: {b: 1}}] (at 1), before and after
    [recObj] normalized it. *)
Definition nested_literal_state : state :=
  match nested_literal_template empty_state with
  | Ret _ s => s
  | _ => empty_state
  end.

Definition nested_literal_state' : state :=
  match recObj 2 (VRef 1) VUndefined nested_literal_state with
  | Ret _ s => s
  | _ => empty_state
  end.

(** The values of the own properties of a plain object, in enumeration
    order. *)
Definition own_values (h : list cell) (o : value) : list value :=
  match cell_at h o with Some (Obj props) => map snd props | _ => [] end.

(** A store with [_.isString] (at 0), [_.isNumber] (at 1), the function
    [and(isNumber, 0)] (at 2), which returns false on a string and raises
    a type error on a number, the object [{a: "s", b: 1}] (at 3), the
    array [["s", 1]] (at 4), [hash(and(isNumber, 0))] (at 5) and
    [arr(and(isNumber, 0))] (at 6). *)
Definition collections_example : M unit :=
  let! isString := native "isString" isString in
  let! isNumber := native "isNumber" isNumber in
  let! f := and_ [isNumber; VNum 0] in
  let! o := new_object [("a", VStr "s"); ("b", VNum 1)] in
  let! a := new_array [VStr "s"; VNum 1] in
  let! h := hash f None None in
  let! r := arr f None None in
  ret tt.

Definition collections_example_state : state :=
  match collections_example empty_state with
  | Ret _ s => s
  | _ => empty_state
  end.

(** A store with [_.isString] (at 0) and the object [{a: "s", b: "t"}]
    (at 1), and the state after [hash(_.isString, 1, 2)]: the new function
    is at 2. *)
Definition hash_example_state : state :=
  mkState [Fun (mkFunc "isString" (Native isString) None None);
           Obj [("a", VStr "s"); ("b", VStr "t")]] [].

Definition hash_example_state' : state :=
  mkState (heap hash_example_state
           ++ [Fun (mkFunc "hash" (Chash (VRef 0) 1 (Some 2%Z))
                      (Some [VRef 0; VNum 1; VNum 2]) None)]) [].

(** The conversion loop started at index [k]. *)
Definition indexed_from (k : nat) (items : list value) : list (string * value) :=
  imap (fun i v => (index_key (k + i), v)) items.

(** A store with [_.isString] (at 0), the template [{a: _.isString}]
    (at 1), the candidate [{a: "x"}] (at 2), the function
    [obj({a: _.isString})] (at 3), the array [["x"]] (at 4), the object
    [{'0': "x"}] (at 5) and the array matcher that [recObj] builds for
    [["x"]] (at 6). *)
Definition matchers_example_state : state :=
  mkState
    [Fun (mkFunc "isString" (Native isString) None None);
     Obj [("a", VRef 0)];
     Obj [("a", VStr "x")];
     Fun (mkFunc "object" (Cobject (VRef 1) VUndefined) (Some [VRef 1]) None);
     Arr [VStr "x"];
     Obj [("0", VStr "x")];
     Fun (mkFunc "array" (Carray 5 VUndefined) None (Some [VRef 4]))]
    [].

(** [recObj(t, loose)] started in [s] throws only when [t] is not a plain
    object. *)
Definition throws_only_if_not_plain (c : M value) (t : value) (s : state)
    : Prop :=
  ensures c s (fun _ _ => True) (fun _ => isPlainObject (heap s) t = false).

(** The computation [c] started in [s] does not throw. *)
Definition never_throws {A} (c : M A) (s : state) : Prop :=
  ensures c s (fun _ _ => True) (fun _ => False).

(** The records of [s] are still there in [s'], in the same order, before
    the records added since. *)
Definition grows (s s' : state) : Prop :=
  exists new, messages s' = messages s ++ new.

(** The computation [c] started in [s] only appends records. *)
Definition appends {A} (c : M A) (s : state) : Prop :=
  ensures c s (fun _ => grows s) (grows s).

Record appends_spec (rec : interp) : Prop := mkAppendsSpec {
  appends_call : forall f v s, appends (i_call rec f v) s;
  appends_similar : forall t o s, appends (i_similar rec t o) s;
  appends_congruent : forall t o s, appends (i_congruent rec t o) s;
  appends_recObj : forall t loose s, appends (i_recObj rec t loose) s
}.

(** A value that is not a dangling reference. *)
Definition sound (h : list cell) (v : value) : Prop :=
  match v with VRef l => is_Some (h !! l) | _ => True end.

(** A value that [recObj] leaves alone, now and later: it is not a literal
    map or array and not a dangling reference. *)
Definition settled (h : list cell) (v : value) : Prop :=
  is_literal h v = false /\ sound h v.

(** Every value of a plain object of [s] is the same in [s'] or has been
    replaced by a function. *)
Definition refines (s s' : state) : Prop :=
  forall (l : loc) props props' key,
    heap s !! l = Some (Obj props) -> heap s' !! l = Some (Obj props') ->
    get_prop props' key = get_prop props key
    \/ isFunction (heap s') (get_prop props' key) = true.

Definition settles (s s' : state) : Prop := evolves s s' /\ refines s s'.

(** The outcome of [recObj] started in [s]. *)
Definition normalizes (s : state) (f : value) (s' : state) : Prop :=
  settles s s' /\ isFunction (heap s') f = true.

(** The value of the key [key] of the object [t] is settled in [s]. *)
Definition key_settled (t : value) (s : state) (key : string) : Prop :=
  exists props, cell_at (heap s) t = Some (Obj props)
                /\ settled (heap s) (get_prop props key).

(** * Properties *)

(** ** Strings and the matcher *)

Lemma append_cons (x : ascii) (a b : string) :
  String x a +:+ b = String x (a +:+ b).
Proof. reflexivity. Qed.

Lemma append_nil (b : string) : EmptyString +:+ b = b.
Proof. reflexivity. Qed.

Ltac sapp := rewrite ?append_cons, ?append_nil in *.

Lemma append_assoc (a b c : string) : (a +:+ b) +:+ c = a +:+ (b +:+ c).
Proof. induction a as [|x a IH]; sapp; [reflexivity | now rewrite IH]. Qed.

Lemma append_empty_r (a : string) : a +:+ EmptyString = a.
Proof. induction a as [|x a IH]; sapp; [reflexivity | now rewrite IH]. Qed.

Lemma at_end_true (s : string) : Regexp.at_end s = true <-> s = EmptyString.
Proof. destruct s; simpl; split; congruence. Qed.

Lemma iter_m_correct (step : string -> (string -> bool) -> bool)
    (L : string -> Prop) :
  (forall s k, step s k = true <-> splits L s k) ->
  forall n s k, Regexp.iter_m step n s k = true <-> splits (Regexp.power L n) s k.
Proof.
  intros Hstep n. induction n as [|n IH]; intros s k; simpl.
  - split.
    + intros Hk. exists EmptyString, s. auto.
    + intros (s1 & s2 & -> & -> & Hk). exact Hk.
  - rewrite Hstep. split.
    + intros (s1 & s2 & -> & H1 & H2). apply IH in H2.
      destruct H2 as (t1 & t2 & -> & Ht1 & Hk).
      exists (s1 +:+ t1), t2. rewrite append_assoc.
      repeat split; auto. exists s1, t1. auto.
    + intros (s12 & s3 & -> & (s1 & s2 & -> & H1 & H2) & Hk).
      exists s1, (s2 +:+ s3). rewrite append_assoc. repeat split; auto.
      apply IH. exists s2, s3. auto.
Qed.

Lemma m_correct (r : Regexp.regex) :
  forall s k, Regexp.m r s k = true <-> splits (Regexp.lang r) s k.
Proof.
  induction r as [|c| |r1 IH1 r2 IH2|n r IH|r IH]; intros s k.
  - simpl. split.
    + intros Hk. exists EmptyString, s. auto.
    + intros (s1 & s2 & -> & -> & Hk). exact Hk.
  - simpl. destruct s as [|c' s'].
    + split; [discriminate|]. intros (s1 & s2 & Hs & -> & _). discriminate.
    + destruct (Ascii.eqb_spec c c') as [->|Hne].
      * split.
        -- intros Hk. exists (String c' EmptyString), s'. auto.
        -- intros (s1 & s2 & Hs & -> & Hk). sapp. congruence.
      * split; [discriminate|].
        intros (s1 & s2 & Hs & -> & _). sapp. congruence.
  - simpl. destruct s as [|c' s'].
    + split; [discriminate|].
      intros (s1 & s2 & Hs & (c & _ & ->) & _). discriminate.
    + destruct (Regexp.is_digit c') eqn:Hd.
      * split.
        -- intros Hk. exists (String c' EmptyString), s'. repeat split; auto.
           exists c'. auto.
        -- intros (s1 & s2 & Hs & (c & _ & ->) & Hk). sapp. congruence.
      * split; [discriminate|].
        intros (s1 & s2 & Hs & (c & Hc & ->) & _). sapp. congruence.
  - simpl. rewrite IH1. split.
    + intros (s1 & s2 & -> & H1 & H2). apply IH2 in H2.
      destruct H2 as (t1 & t2 & -> & Ht1 & Hk).
      exists (s1 +:+ t1), t2. rewrite append_assoc.
      repeat split; auto. exists s1, t1. auto.
    + intros (s12 & s3 & -> & (s1 & s2 & -> & H1 & H2) & Hk).
      exists s1, (s2 +:+ s3). rewrite append_assoc. repeat split; auto.
      apply IH2. exists s2, s3. auto.
  - simpl. apply iter_m_correct. exact IH.
  - simpl. destruct (Regexp.m r s k) eqn:Hm.
    + split; [|reflexivity]. intros _. apply IH in Hm.
      destruct Hm as (s1 & s2 & -> & H1 & Hk). exists s1, s2. auto.
    + split.
      * intros Hk. exists EmptyString, s. auto.
      * intros (s1 & s2 & -> & [H1 | ->] & Hk); [|exact Hk].
        assert (Regexp.m r (s1 +:+ s2) k = true) as Hm'
          by (apply IH; exists s1, s2; auto).
        congruence.
Qed.

Lemma test_correct (r : Regexp.regex) (s : string) :
  Regexp.test r s = true <-> Regexp.lang r s.
Proof.
  unfold Regexp.test. rewrite m_correct. split.
  - intros (s1 & s2 & -> & H1 & He). apply at_end_true in He. subst.
    now rewrite append_empty_r.
  - intros H. exists s, EmptyString. rewrite append_empty_r. auto.
Qed.

Lemma power_digits (n : nat) :
  forall s, Regexp.power (Regexp.lang Regexp.Digit) n s <-> digits n s.
Proof.
  induction n as [|n IH]; intros s; simpl.
  - destruct s; split; intros H; try reflexivity; try discriminate;
      try exact I; contradiction.
  - split.
    + intros (s1 & s2 & -> & (c & Hc & ->) & Hp). sapp. simpl. split; auto.
      now apply IH.
    + destruct s as [|c s']; [contradiction|]. intros [Hc Hd].
      exists (String c EmptyString), s'. repeat split; auto.
      * exists c. auto.
      * now apply IH.
Qed.

Lemma lang_digits_then (n : nat) (r : Regexp.regex) (s : string) :
  Regexp.lang (Regexp.Cat (Regexp.Repeat n Regexp.Digit) r) s <->
  exists d rest, digits n d /\ s = d +:+ rest /\ Regexp.lang r rest.
Proof.
  cbn [Regexp.lang]. split.
  - intros (d & rest & -> & Hd & Hr). apply power_digits in Hd. eauto.
  - intros (d & rest & Hd & -> & Hr). apply power_digits in Hd. eauto.
Qed.

Lemma lang_lit_then (c : ascii) (r : Regexp.regex) (s : string) :
  Regexp.lang (Regexp.Cat (Regexp.Lit c) r) s <->
  exists rest, s = String c rest /\ Regexp.lang r rest.
Proof.
  cbn [Regexp.lang]. split.
  - intros (d & rest & -> & -> & Hr). exists rest. auto.
  - intros (rest & -> & Hr). exists (String c EmptyString), rest. auto.
Qed.

Lemma lang_digits_end (n : nat) (s : string) :
  Regexp.lang (Regexp.Cat (Regexp.Repeat n Regexp.Digit) Regexp.Eps) s <->
  digits n s.
Proof.
  rewrite lang_digits_then. split.
  - intros (d & rest & Hd & -> & Hr). cbn in Hr. subst.
    now rewrite append_empty_r.
  - intros Hd. exists s, EmptyString. rewrite append_empty_r. cbn. auto.
Qed.

Ltac take_digits H d :=
  apply lang_digits_then in H; destruct H as (d & ? & ? & -> & H).
Ltac take_lit H :=
  apply lang_lit_then in H; destruct H as (? & -> & H).
Ltac give_digits d :=
  apply lang_digits_then; eexists d, _; split; [assumption|]; split; [reflexivity|].
Ltac give_lit :=
  apply lang_lit_then; eexists; split; [reflexivity|].

Lemma lang_iso_regexp (s : string) :
  Regexp.lang iso_regexp s <-> iso_date_form ["+"%char] s.
Proof.
  unfold iso_regexp. cbn [Regexp.seq]. split.
  - intros H.
    take_digits H year. take_lit H. take_digits H month. take_lit H.
    take_digits H day. take_lit H. take_digits H hour. take_lit H.
    take_digits H minute. take_lit H. take_digits H second. take_lit H.
    take_digits H milli. take_lit H.
    cbn [Regexp.lang] in H. destruct H as (o & e & -> & Ho & ->).
    rewrite append_empty_r.
    assert (iso_timestamp
              (year +:+ "-" +:+ month +:+ "-" +:+ day +:+ "T" +:+ hour +:+ ":"
               +:+ minute +:+ ":" +:+ second +:+ "." +:+ milli +:+ "Z")) as Hstamp.
    { exists year, month, day, hour, minute, second, milli. repeat split; auto. }
    destruct Ho as [Ho | ->].
    + right.
      fold (Regexp.lang (Regexp.Cat (Regexp.Lit "+")
              (Regexp.Cat (Regexp.Repeat 2 Regexp.Digit)
                 (Regexp.Cat (Regexp.Lit ":")
                    (Regexp.Cat (Regexp.Repeat 2 Regexp.Digit) Regexp.Eps)))) o) in Ho.
      take_lit Ho. take_digits Ho oh. take_lit Ho. apply lang_digits_end in Ho.
      eexists _, _. split; [exact Hstamp|]. split.
      * eexists "+"%char, oh, _. repeat split; eauto. now left.
      * rewrite !append_assoc. reflexivity.
    + left. exact Hstamp.
  - intros [Hs | (stamp & off & Hs & Ho & ->)].
    + destruct Hs as (year & month & day & hour & minute & second & milli
                      & ? & ? & ? & ? & ? & ? & ? & ->).
      give_digits year. give_lit. give_digits month. give_lit.
      give_digits day. give_lit. give_digits hour. give_lit.
      give_digits minute. give_lit. give_digits second. give_lit.
      give_digits milli. give_lit.
      cbn [Regexp.lang]. exists EmptyString, EmptyString. auto.
    + destruct Hs as (year & month & day & hour & minute & second & milli
                      & ? & ? & ? & ? & ? & ? & ? & ->).
      destruct Ho as (sign & oh & om & [<- | []] & ? & ? & ->).
      rewrite !append_assoc.
      give_digits year. give_lit. give_digits month. give_lit.
      give_digits day. give_lit. give_digits hour. give_lit.
      give_digits minute. give_lit. give_digits second. give_lit.
      give_digits milli. give_lit.
      exists (String "+" (oh +:+ ":" +:+ om)), EmptyString.
      split; [now rewrite append_empty_r|]. split; [|reflexivity]. left.
      give_lit. give_digits oh. give_lit. now apply lang_digits_end.
Qed.

Lemma isISODate_string (s : string) :
  isISODate (VStr s) = true <-> iso_date_form ["+"%char] s.
Proof. simpl. rewrite test_correct. apply lang_iso_regexp. Qed.

(** C2, as amended: [isISODate(v)] is true exactly when [v] is a string of
    the form YYYY-MM-DDTHH:MM:SS.mmmZ (digits in the lettered positions,
    literal separators) optionally followed by an offset [+HH:MM], whose
    sign is a plus. *)
Theorem isISODate_iff_plus_offset_form (v : value) :
  isISODate v = true <->
  exists s, v = VStr s /\ iso_date_form ["+"%char] s.
Proof.
  split.
  - destruct v as [| | | |s|]; try discriminate. intros H.
    exists s. split; [reflexivity|]. now apply isISODate_string.
  - intros (s & -> & H). now apply isISODate_string.
Qed.

(** C2 fails as stated: a string of the stated form whose offset has a
    minus sign is rejected. *)
Lemma isISODate_rejects_minus_offset :
  iso_date_form ["+"%char; "-"%char] "2015-04-28T10:00:00.000Z-02:00"
  /\ isISODate (VStr "2015-04-28T10:00:00.000Z-02:00") = false.
Proof.
  split; [|reflexivity]. right.
  exists "2015-04-28T10:00:00.000Z", "-02:00". split; [|split].
  - exists "2015", "04", "28", "10", "00", "00", "000".
    cbn. repeat split; reflexivity.
  - exists "-"%char, "02", "00". cbn. repeat split; auto.
  - reflexivity.
Qed.

(** The examples of the specification for [isISODate]. *)
Example isISODate_examples :
  isISODate (VStr "2015-04-28T10:00:00.000Z") = true
  /\ isISODate (VStr "2015-04-28") = false
  /\ isISODate (VStr "2015-04-28T10:00:00.000Z+02:00") = true
  /\ isISODate (VNum 20150428) = false.
Proof. repeat split. Qed.

(** ** The monad *)

Lemma bind_eq {A B} (c : M A) (k : A -> M B) (s : state) :
  bind c k s = match c s with
               | Ret a s' => k a s'
               | Throw e s' => Throw e s'
               | OutOfFuel => OutOfFuel
               end.
Proof. reflexivity. Qed.

Lemma ensures_ret {A} (a : A) s (Q : A -> state -> Prop) E :
  Q a s -> ensures (ret a) s Q E.
Proof. intros H. exact H. Qed.

Lemma ensures_throw {A} e s (Q : A -> state -> Prop) (E : state -> Prop) :
  E s -> ensures (throw e) s Q E.
Proof. intros H. exact H. Qed.

Lemma ensures_bind {A B} (c : M A) (k : A -> M B) s
    (Q1 : A -> state -> Prop) (Q : B -> state -> Prop) (E : state -> Prop) :
  ensures c s Q1 E ->
  (forall a s1, Q1 a s1 -> ensures (k a) s1 Q E) ->
  ensures (bind c k) s Q E.
Proof.
  unfold ensures. rewrite bind_eq. intros Hc Hk.
  destruct (c s) as [a s1|e s1|]; auto. now apply Hk.
Qed.

Lemma ensures_get_heap {A} (k : list cell -> M A) s Q E :
  ensures (k (heap s)) s Q E -> ensures (bind get_heap k) s Q E.
Proof. intros H. exact H. Qed.

Lemma ensures_weaken {A} (c : M A) s (Q Q' : A -> state -> Prop)
    (E E' : state -> Prop) :
  ensures c s Q E ->
  (forall a s', Q a s' -> Q' a s') -> (forall s', E s' -> E' s') ->
  ensures c s Q' E'.
Proof.
  unfold ensures. intros H HQ HE. destruct (c s); auto.
Qed.

Lemma ensures_Ret {A} (c : M A) s Q E a s' :
  ensures c s Q E -> c s = Ret a s' -> Q a s'.
Proof. unfold ensures. intros H Hc. now rewrite Hc in H. Qed.

Lemma ensures_Throw {A} (c : M A) s (Q : A -> state -> Prop) E e s' :
  ensures c s Q E -> c s = Throw e s' -> E s'.
Proof. unfold ensures. intros H Hc. now rewrite Hc in H. Qed.

(** ** The store *)

Lemma heap_ok_lookup ok (h : list cell) l c :
  heap_ok ok h = true -> h !! l = Some c -> cell_ok ok c = true.
Proof.
  unfold heap_ok. rewrite forallb_forall. intros H Hl. apply H.
  apply list_elem_of_In. eapply list_elem_of_lookup_2. exact Hl.
Qed.

Lemma heap_ok_function ok (h : list cell) f fn :
  heap_ok ok h = true -> cell_at h f = Some (Fun fn) -> ok (code fn) = true.
Proof.
  destruct f; try discriminate. simpl. intros H Hl.
  exact (heap_ok_lookup ok h l (Fun fn) H Hl).
Qed.

Lemma heap_ok_alloc ok (h : list cell) c :
  heap_ok ok h = true -> cell_ok ok c = true -> heap_ok ok (h ++ [c]) = true.
Proof.
  unfold heap_ok. rewrite forallb_app. simpl. intros -> ->. reflexivity.
Qed.

Lemma heap_ok_store ok (h : list cell) l c :
  heap_ok ok h = true -> cell_ok ok c = true ->
  heap_ok ok (<[l := c]> h) = true.
Proof.
  unfold heap_ok. rewrite !forallb_forall. intros H Hc x Hx.
  apply list_elem_of_In in Hx. apply list_elem_of_lookup_1 in Hx.
  destruct Hx as [i Hi]. apply list_lookup_insert_Some in Hi.
  destruct Hi as [(_ & <- & _) | (_ & Hi)]; [exact Hc|].
  apply H. apply list_elem_of_In. eapply list_elem_of_lookup_2. exact Hi.
Qed.

Lemma cell_at_fresh (h : list cell) c :
  cell_at (h ++ [c]) (VRef (length h)) = Some c.
Proof. simpl. now apply list_lookup_middle. Qed.

Lemma cell_at_alloc (h : list cell) c v x :
  cell_at h v = Some x -> cell_at (h ++ [c]) v = Some x.
Proof. destruct v; try discriminate. simpl. apply lookup_app_l_Some. Qed.

Lemma new_function_eq name c args extra s :
  new_function name c args extra s =
  Ret (VRef (length (heap s)))
      (mkState (heap s ++ [Fun (mkFunc name c args extra)]) (messages s)).
Proof. reflexivity. Qed.

(** ** Unfolding the interpreter *)

Lemma call_S fuel f v : call (S fuel) f v = call_body (interp_at fuel) f v.
Proof. reflexivity. Qed.

Lemma similar_S fuel t o :
  similar (S fuel) t o = congruence_body (interp_at fuel) true t o.
Proof. reflexivity. Qed.

Lemma congruent_S fuel t o :
  congruent (S fuel) t o = congruence_body (interp_at fuel) false t o.
Proof. reflexivity. Qed.

Lemma recObj_S fuel t loose :
  recObj (S fuel) t loose = recObj_body (interp_at fuel) t loose.
Proof. reflexivity. Qed.

Lemma call_function fuel f v s fn :
  cell_at (heap s) f = Some (Fun fn) ->
  call (S fuel) f v s = apply_closure (interp_at fuel) (code fn) v s.
Proof.
  intros H. rewrite call_S. unfold call_body. rewrite bind_eq. simpl.
  now rewrite H.
Qed.

(** ** and, or without arguments *)

(** C10: called without arguments, [and()] is the constant-true predicate
    and [or()] the constant-false predicate: for every value [v],
    [and()(v)] is [true] and [or()(v)] is [false]. *)
Theorem and_or_without_arguments (fuel : nat) (v : value) (s : state) :
  (exists f s1, and_ [] s = Ret f s1 /\ call (S fuel) f v s1 = Ret true s1)
  /\ (exists f s1, or_ [] s = Ret f s1 /\ call (S fuel) f v s1 = Ret false s1).
Proof.
  split.
  - eexists _, _. split; [apply new_function_eq|].
    erewrite call_function by apply cell_at_fresh. reflexivity.
  - eexists _, _. split; [apply new_function_eq|].
    erewrite call_function by apply cell_at_fresh. reflexivity.
Qed.

(** ** recObj on a template that is not a plain object *)

Lemma recObj_not_plain fuel template loose s :
  isPlainObject (heap s) template = false ->
  recObj (S fuel) template loose s
  = Throw (Thrown "recObj must be called on a plain object") s.
Proof.
  intros H. rewrite recObj_S. unfold recObj_body. rewrite bind_eq. simpl.
  now rewrite H.
Qed.

(** C9: on an argument that is not a plain map, [recObj] throws
    ['recObj must be called on a plain object'] and leaves the state as it
    was; it returns no template, whatever the fuel. *)
Theorem recObj_throws_on_non_plain_object
    (fuel : nat) (template loose : value) (s : state) :
  isPlainObject (heap s) template = false ->
  recObj (S fuel) template loose s
    = Throw (Thrown "recObj must be called on a plain object") s
  /\ forall n f s', recObj n template loose s <> Ret f s'.
Proof.
  intros H. split; [now apply recObj_not_plain|].
  intros [|n] f s'; [discriminate|].
  rewrite recObj_not_plain by exact H. discriminate.
Qed.

Lemma recObj_throws_on_non_plain_object_witness :
  recObj 1 (VNum 3) VUndefined empty_state
    = Throw (Thrown "recObj must be called on a plain object") empty_state
  /\ forall n f s', recObj n (VNum 3) VUndefined empty_state <> Ret f s'.
Proof.
  apply (recObj_throws_on_non_plain_object 0 (VNum 3) VUndefined empty_state).
  reflexivity.
Defined.

(** ** validateObject on a candidate that is not a plain object *)

(** C8: when the candidate is not a plain map, [validateObject] returns
    [false], whatever the template and the options, and leaves no
    mismatch record: [getInvalidDescription] then returns [null]. *)
Theorem validateObject_non_plain_candidate
    (JSON_stringify : list cell -> value -> string) (fuel fuel' : nat)
    (template object loose recursive : value) (s : state) :
  isPlainObject (heap s) object = false ->
  exists s',
    validateObject fuel template object loose recursive s = Ret false s'
    /\ heap s' = heap s
    /\ getMessages s' = []
    /\ getInvalidDescription JSON_stringify fuel' s' = Some None.
Proof.
  intros H. exists (mkState (heap s) []). repeat split.
  unfold validateObject, bind, clear_messages, get_heap. simpl.
  now rewrite H.
Qed.

Lemma validateObject_non_plain_candidate_witness :
  exists s',
    validateObject 0 VUndefined (VStr "x") VUndefined VUndefined
        (mkState [] [InvalidKeys ["a"] []])
      = Ret false s'
    /\ heap s' = []
    /\ getMessages s' = []
    /\ getInvalidDescription (fun _ _ => EmptyString) 0 s' = Some None.
Proof.
  apply (validateObject_non_plain_candidate (fun _ _ => EmptyString) 0 0 VUndefined
           (VStr "x") VUndefined VUndefined (mkState [] [InvalidKeys ["a"] []])).
  reflexivity.
Defined.

(** ** Validation without array matchers leaves the store unchanged *)

Lemma keeps_ret {A} (a : A) s : keeps_heap (ret a) s.
Proof. reflexivity. Qed.

Lemma keeps_throw {A} e s : keeps_heap (@throw A e) s.
Proof. reflexivity. Qed.

Lemma keeps_emit msg s : keeps_heap (emit msg) s.
Proof. reflexivity. Qed.

Lemma keeps_get_member o key s : keeps_heap (get_member o key) s.
Proof.
  unfold keeps_heap, ensures, get_member.
  destruct (cell_at (heap s) o) as [[| |]|]; reflexivity.
Qed.

Lemma keeps_bind {A B} (c : M A) (k : A -> M B) s :
  keeps_heap c s ->
  (forall a s1, heap s1 = heap s -> keeps_heap (k a) s1) ->
  keeps_heap (bind c k) s.
Proof.
  intros Hc Hk. eapply ensures_bind; [exact Hc|].
  intros a s1 Hs1. eapply ensures_weaken; [apply Hk; exact Hs1| |];
    unfold same_heap; intros; congruence.
Qed.

Lemma keeps_get_heap {A} (k : list cell -> M A) s :
  keeps_heap (k (heap s)) s -> keeps_heap (bind get_heap k) s.
Proof. intros H. exact H. Qed.

Section Frame.
Variable rec : interp.
Hypothesis Hrec : frame_spec rec.

Lemma frame_every list func s :
  array_free (heap s) = true -> keeps_heap (every rec list func) s.
Proof.
  revert s. induction list as [|x rest IH]; intros s Hs; simpl.
  - apply keeps_ret.
  - apply keeps_bind; [now apply (frame_call rec Hrec)|].
    intros [] s1 Hs1; [|apply keeps_ret]. apply IH. congruence.
Qed.

Lemma frame_each_valid values func valid s :
  array_free (heap s) = true ->
  keeps_heap (each_valid rec values func valid) s.
Proof.
  revert valid s.
  induction values as [|x rest IH]; intros valid s Hs; simpl.
  - apply keeps_ret.
  - apply keeps_bind; [now apply (frame_call rec Hrec)|].
    intros b s1 Hs1. apply IH. congruence.
Qed.

Lemma frame_and_loop funcs v s :
  array_free (heap s) = true -> keeps_heap (and_loop rec funcs v) s.
Proof.
  revert s. induction funcs as [|f rest IH]; intros s Hs; simpl.
  - apply keeps_ret.
  - apply keeps_bind; [now apply (frame_call rec Hrec)|].
    intros [] s1 Hs1; [|apply keeps_ret]. apply IH. congruence.
Qed.

Lemma frame_or_loop funcs v s :
  array_free (heap s) = true -> keeps_heap (or_loop rec funcs v) s.
Proof.
  revert s. induction funcs as [|f rest IH]; intros s Hs; simpl.
  - apply keeps_ret.
  - apply keeps_bind; [now apply (frame_call rec Hrec)|].
    intros [] s1 Hs1; [apply keeps_ret|]. apply IH. congruence.
Qed.

Lemma frame_apply_closure c v s :
  array_free (heap s) = true -> is_array_matcher c = false ->
  keeps_heap (apply_closure rec c v) s.
Proof.
  intros Hs Hc. destruct c; simpl; try discriminate.
  - apply keeps_ret.
  - destruct (isUndefined v); [apply keeps_ret|].
    now apply (frame_call rec Hrec).
  - destruct (isNull v); [apply keeps_ret|].
    now apply (frame_call rec Hrec).
  - apply keeps_ret.
  - apply keeps_get_heap.
    destruct (isPlainObject (heap s) v); simpl; [|apply keeps_ret].
    destruct (truthy loose).
    + now apply (frame_similar rec Hrec).
    + now apply (frame_congruent rec Hrec).
  - apply keeps_get_heap.
    destruct (isArray (heap s) v); simpl; [|apply keeps_ret].
    destruct (in_bounds _ _ _); [|apply keeps_ret].
    now apply frame_every.
  - apply keeps_get_heap.
    destruct (isPlainObject (heap s) v); simpl; [|apply keeps_ret].
    destruct (in_bounds _ _ _); simpl; [|apply keeps_ret].
    destruct (cell_at (heap s) v) as [[| |]|]; try apply keeps_ret.
    now apply frame_each_valid.
  - now apply frame_and_loop.
  - now apply frame_or_loop.
  - apply keeps_get_heap.
    destruct (isArray (heap s) options); [apply keeps_ret|apply keeps_throw].
  - apply keeps_ret.
Qed.

Lemma frame_call_body f v s :
  array_free (heap s) = true -> keeps_heap (call_body rec f v) s.
Proof.
  intros Hs. unfold call_body. apply keeps_get_heap.
  destruct (cell_at (heap s) f) as [[| |fn]|] eqn:Hf; try apply keeps_throw.
  apply frame_apply_closure; [exact Hs|].
  pose proof (heap_ok_function _ _ _ _ Hs Hf) as Hok. simpl in Hok.
  now destruct (is_array_matcher (code fn)).
Qed.

Lemma frame_test_node loose key t o s :
  array_free (heap s) = true -> keeps_heap (test_node rec loose key t o) s.
Proof.
  intros Hs. unfold test_node. apply keeps_get_heap.
  destruct (isPlainObject (heap s) t).
  - destruct loose.
    + now apply (frame_similar rec Hrec).
    + now apply (frame_congruent rec Hrec).
  - apply keeps_bind.
    + destruct (isFunction (heap s) t); [|apply keeps_ret].
      now apply (frame_call rec Hrec).
    + intros [] s1 Hs1; [apply keeps_ret|].
      apply keeps_bind; [apply keeps_emit|]. intros. apply keeps_ret.
Qed.

Lemma frame_test_keys loose t o keys s :
  array_free (heap s) = true -> keeps_heap (test_keys rec loose t o keys) s.
Proof.
  revert s. induction keys as [|key rest IH]; intros s Hs; simpl.
  - apply keeps_ret.
  - apply keeps_bind; [apply keeps_get_member|]. intros tn s1 Hs1.
    apply keeps_bind; [apply keeps_get_member|]. intros on s2 Hs2.
    apply keeps_bind; [apply frame_test_node; congruence|].
    intros [] s3 Hs3; [|apply keeps_ret]. apply IH. congruence.
Qed.

Lemma frame_congruence_body loose t o s :
  array_free (heap s) = true ->
  keeps_heap (congruence_body rec loose t o) s.
Proof.
  intros Hs. unfold congruence_body. apply keeps_get_heap.
  destruct (isPlainObject (heap s) o); simpl; [|apply keeps_ret].
  destruct (key_sets_match _ _ _); simpl.
  - now apply frame_test_keys.
  - apply keeps_bind; [apply keeps_emit|]. intros. apply keeps_ret.
Qed.

Lemma frame_step : frame_spec (step rec).
Proof.
  split; simpl; intros.
  - now apply frame_call_body.
  - now apply frame_congruence_body.
  - now apply frame_congruence_body.
Qed.
End Frame.

Lemma frame_bottom : frame_spec bottom.
Proof. split; intros; exact I. Qed.

Lemma frame_interp (fuel : nat) : frame_spec (interp_at fuel).
Proof.
  induction fuel as [|n IH]; [apply frame_bottom | now apply frame_step].
Qed.

(** ** recObj keeps the keys of every object *)

Lemma keeps_keys_refl s : keeps_keys s s.
Proof. intros l props H. eauto. Qed.

Lemma keeps_keys_trans s1 s2 s3 :
  keeps_keys s1 s2 -> keeps_keys s2 s3 -> keeps_keys s1 s3.
Proof.
  intros H12 H23 l props H. destruct (H12 l props H) as (p2 & H2 & E2).
  destruct (H23 l p2 H2) as (p3 & H3 & E3). exists p3. split; congruence.
Qed.

Lemma keeps_keys_alloc c s :
  ensures (alloc c) s (fun _ s' => keeps_keys s s' /\ messages s' = messages s)
    (fun _ => True).
Proof.
  split; [|reflexivity]. intros l props H. exists props. split; [|reflexivity].
  simpl. now apply lookup_app_l_Some.
Qed.

Lemma keeps_keys_new_function name c args extra s :
  ensures (new_function name c args extra) s
    (fun _ s' => keeps_keys s s' /\ messages s' = messages s) (fun _ => True).
Proof.
  unfold ensures. rewrite new_function_eq. split; [|reflexivity].
  intros l props H. exists props. split; [|reflexivity].
  simpl. now apply lookup_app_l_Some.
Qed.

Lemma set_prop_keys props key v :
  In key (map fst props) -> map fst (set_prop props key v) = map fst props.
Proof.
  induction props as [|[k w] rest IH]; simpl; [contradiction|].
  destruct (String.eqb_spec k key) as [->|Hne]; [reflexivity|].
  intros [H|H]; [contradiction|]. simpl. now rewrite IH.
Qed.

Lemma own_keys_kept s s' v :
  keeps_keys s s' -> isPlainObject (heap s) v = true ->
  own_keys (heap s') v = own_keys (heap s) v
  /\ isPlainObject (heap s') v = true.
Proof.
  unfold isPlainObject, own_keys, cell_at. intros Hk.
  destruct v; try discriminate.
  destruct (heap s !! l) as [[props| |]|] eqn:Hl; try discriminate. intros _.
  destruct (Hk l props Hl) as (props' & Hl' & Hkeys). rewrite Hl'. auto.
Qed.

Lemma keeps_keys_set_member o key v s :
  In key (own_keys (heap s) o) ->
  ensures (set_member o key v) s
    (fun _ s' => keeps_keys s s' /\ messages s' = messages s) (fun _ => True).
Proof.
  unfold ensures, set_member, own_keys. intros Hkey.
  destruct o; try (split; [apply keeps_keys_refl | reflexivity]).
  simpl in *. destruct (heap s !! l) as [[props| |]|] eqn:Hl;
    try (split; [apply keeps_keys_refl | reflexivity]).
  split; [|reflexivity]. intros l' props' Hl'. simpl.
  destruct (decide (l = l')) as [<-|Hne].
  - rewrite Hl in Hl'. injection Hl' as <-.
    exists (set_prop props key v). split.
    + apply list_lookup_insert_eq. eapply lookup_lt_Some. exact Hl.
    + now apply set_prop_keys.
  - exists props'. split; [|reflexivity].
    now rewrite list_lookup_insert_ne.
Qed.

Section Normalizer.
Variable rec : interp.
Hypothesis Hrec : forall t loose s,
  ensures (i_recObj rec t loose) s (normalized t loose s) (fun _ => True).

Lemma keys_recObj_key t loose key s :
  In key (own_keys (heap s) t) ->
  ensures (recObj_key rec t loose key) s
    (fun _ s' => keeps_keys s s' /\ messages s' = messages s) (fun _ => True).
Proof.
  intros Hkey. unfold recObj_key.
  assert (isPlainObject (heap s) t = true) as Hplain.
  { unfold own_keys in Hkey. unfold isPlainObject.
    destruct (cell_at (heap s) t) as [[| |]|]; auto; contradiction. }
  assert (forall f s1, keeps_keys s s1 -> messages s1 = messages s ->
            ensures (set_member t key f) s1
              (fun _ s' => keeps_keys s s' /\ messages s' = messages s)
              (fun _ => True)) as Hset.
  { intros f s1 Hk Hm. eapply ensures_weaken;
      [apply keeps_keys_set_member| |auto].
    - destruct (own_keys_kept s s1 t Hk Hplain) as [-> _]. exact Hkey.
    - intros ? s2 [Hk2 Hm2]. split; [|congruence].
      eapply keeps_keys_trans; eassumption. }
  eapply ensures_bind with (Q1 := fun _ s1 => s1 = s).
  { unfold ensures, get_member.
    destruct (cell_at (heap s) t) as [[| |]|]; reflexivity. }
  intros v s1 ->. apply ensures_get_heap.
  destruct (isPlainObject (heap s) v).
  - eapply ensures_bind; [apply Hrec|]. intros f s1 (Hk & Hm & _).
    now apply Hset.
  - destruct (isArray (heap s) v).
    + eapply ensures_bind; [apply keeps_keys_alloc|]. intros obj1 s1 [Hk1 Hm1].
      eapply ensures_bind; [apply keeps_keys_new_function|].
      intros f s2 [Hk2 Hm2].
      apply Hset; [|congruence]. eapply keeps_keys_trans; eassumption.
    + split; [apply keeps_keys_refl | reflexivity].
Qed.

Lemma keys_recObj_keys t loose keys s :
  (forall k, In k keys -> In k (own_keys (heap s) t)) ->
  ensures (recObj_keys rec t loose keys) s
    (fun _ s' => keeps_keys s s' /\ messages s' = messages s) (fun _ => True).
Proof.
  revert s. induction keys as [|key rest IH]; intros s Hkeys; simpl.
  - split; [apply keeps_keys_refl | reflexivity].
  - eapply ensures_bind; [apply keys_recObj_key; apply Hkeys; now left|].
    intros ? s1 [Hk1 Hm1].
    assert (isPlainObject (heap s) t = true) as Hplain.
    { specialize (Hkeys key (or_introl eq_refl)).
      unfold own_keys in Hkeys. unfold isPlainObject.
      destruct (cell_at (heap s) t) as [[| |]|]; auto; contradiction. }
    eapply ensures_weaken; [apply IH| |auto].
    + intros k Hk. destruct (own_keys_kept s s1 t Hk1 Hplain) as [-> _].
      apply Hkeys. now right.
    + intros ? s2 [Hk2 Hm2]. split; [|congruence].
      eapply keeps_keys_trans; eassumption.
Qed.

Lemma normalized_recObj_body t loose s :
  ensures (recObj_body rec t loose) s (normalized t loose s) (fun _ => True).
Proof.
  unfold recObj_body. apply ensures_get_heap.
  destruct (isPlainObject (heap s) t); simpl; [|exact I].
  eapply ensures_bind; [apply keys_recObj_keys; auto|].
  intros ? s1 [Hk1 Hm1].
  pose proof (keeps_keys_new_function "object" (Cobject t loose)
                (Some [t; loose]) None s1) as Hnew.
  unfold ensures, obj in *. rewrite new_function_eq in *.
  destruct Hnew as [Hk2 Hm2]. split; [|split].
  - eapply keeps_keys_trans; eassumption.
  - simpl. exact Hm1.
  - eexists. split; [apply cell_at_fresh | reflexivity].
Qed.
End Normalizer.

Lemma normalized_interp (fuel : nat) t loose s :
  ensures (recObj fuel t loose) s (normalized t loose s) (fun _ => True).
Proof.
  revert t loose s. induction fuel as [|n IH]; intros t loose s; [exact I|].
  rewrite recObj_S. apply normalized_recObj_body. exact IH.
Qed.

(** ** Templates and mutation *)

Lemma array_free_alloc_object_matcher (h : list cell) name t loose args extra :
  array_free h = true ->
  array_free (h ++ [Fun (mkFunc name (Cobject t loose) args extra)]) = true.
Proof. intros H. now apply heap_ok_alloc. Qed.

Lemma validateObject_keeps_heap fuel template object loose recursive s :
  truthy recursive = false -> array_free (heap s) = true ->
  keeps_heap (validateObject fuel template object loose recursive) s.
Proof.
  intros Hrec Hs. unfold validateObject.
  apply keeps_bind; [reflexivity|]. intros _ s1 Hs1.
  apply keeps_get_heap.
  destruct (isPlainObject (heap s1) object); simpl; [|apply keeps_ret].
  rewrite Hrec. destruct (truthy loose).
  - apply (frame_similar _ (frame_interp fuel)). congruence.
  - apply (frame_congruent _ (frame_interp fuel)). congruence.
Qed.

Lemma get_prop_ind (Q : value -> Prop) props key :
  Q VUndefined -> (forall kv, In kv props -> Q (snd kv)) ->
  Q (get_prop props key).
Proof.
  intros Hu. induction props as [|[k v] rest IH]; intros H; simpl; [exact Hu|].
  destruct (String.eqb k key).
  - apply (H (k, v)). now left.
  - apply IH. intros kv Hkv. apply H. now right.
Qed.

Lemma recObj_keys_flat rec template loose props keys s :
  cell_at (heap s) template = Some (Obj props) ->
  forallb (fun kv => negb (is_literal (heap s) (snd kv))) props = true ->
  recObj_keys rec template loose keys s = Ret tt s.
Proof.
  intros Ht Hflat. induction keys as [|key rest IH]; simpl; [reflexivity|].
  rewrite bind_eq.
  assert (recObj_key rec template loose key s = Ret tt s) as ->; [|exact IH].
  unfold recObj_key. rewrite bind_eq. unfold get_member. rewrite Ht.
  rewrite bind_eq. simpl.
  assert (is_literal (heap s) (get_prop props key) = false) as Hlit.
  { apply get_prop_ind; [reflexivity|]. intros kv Hkv.
    rewrite forallb_forall in Hflat. apply Hflat in Hkv.
    now destruct (is_literal (heap s) (snd kv)). }
  unfold is_literal in Hlit. apply orb_false_iff in Hlit as [-> ->].
  reflexivity.
Qed.

Lemma recObj_flat fuel template loose s :
  flat_template (heap s) template = true ->
  recObj (S fuel) template loose s
  = Ret (VRef (length (heap s)))
        (mkState (heap s ++ [Fun (mkFunc "object" (Cobject template loose)
                                    (Some [template; loose]) None)])
                 (messages s)).
Proof.
  unfold flat_template. intros Hflat.
  destruct (cell_at (heap s) template) as [[props| |]|] eqn:Ht; try discriminate.
  rewrite recObj_S. unfold recObj_body. rewrite bind_eq. simpl.
  unfold isPlainObject. rewrite Ht. simpl. rewrite bind_eq.
  rewrite (recObj_keys_flat _ _ _ props) by assumption. reflexivity.
Qed.




(** ** Key sets in loose and exact mode *)

Lemma existsb_eqb_In (k : string) (ks : list string) :
  existsb (String.eqb k) ks = true <-> In k ks.
Proof.
  rewrite existsb_exists. split.
  - intros (x & Hx & He). apply String.eqb_eq in He. now subst.
  - intros H. exists k. split; [exact H | apply String.eqb_refl].
Qed.

Lemma keys_subset_true (ks1 ks2 : list string) :
  keys_subset ks1 ks2 = true <-> forall k, In k ks1 -> In k ks2.
Proof.
  unfold keys_subset. rewrite forallb_forall. split.
  - intros H k Hk. apply existsb_eqb_In. now apply H.
  - intros H k Hk. apply existsb_eqb_In. now apply H.
Qed.

Lemma keys_subset_false (ks1 ks2 : list string) :
  keys_subset ks1 ks2 = false <-> exists k, In k ks1 /\ ~ In k ks2.
Proof.
  split.
  - unfold keys_subset. induction ks1 as [|k rest IH]; simpl; [discriminate|].
    destruct (existsb (String.eqb k) ks2) eqn:Hk; simpl.
    + intros H. destruct (IH H) as (k' & Hin & Hnot). exists k'. auto.
    + intros _. exists k. split; [now left|]. intros Hin.
      apply existsb_eqb_In in Hin. congruence.
  - intros (k & Hin & Hnot). destruct (keys_subset ks1 ks2) eqn:Hs; [|reflexivity].
    exfalso. apply Hnot. rewrite keys_subset_true in Hs. now apply Hs.
Qed.

Lemma validateObject_engine fuel template object loose recursive s :
  isPlainObject (heap s) object = true -> truthy recursive = false ->
  validateObject fuel template object loose recursive s
  = (if truthy loose then similar fuel template object
     else congruent fuel template object) (mkState (heap s) []).
Proof.
  intros Hobj Hrec. unfold validateObject, bind, clear_messages, get_heap.
  simpl. rewrite Hobj, Hrec. simpl. now destruct (truthy loose).
Qed.

Lemma congruence_body_key_mismatch rec loose template object s :
  isPlainObject (heap s) object = true ->
  key_sets_match loose (own_keys (heap s) template) (own_keys (heap s) object)
    = false ->
  congruence_body rec loose template object s
  = Ret false (mkState (heap s)
                 (messages s ++ [InvalidKeys (own_keys (heap s) template)
                                             (own_keys (heap s) object)])).
Proof.
  intros Hobj Hkeys. unfold congruence_body, bind, get_heap. simpl.
  rewrite Hobj, Hkeys. reflexivity.
Qed.

Lemma congruence_body_keys_ok rec loose template object s :
  isPlainObject (heap s) object = true ->
  key_sets_match loose (own_keys (heap s) template) (own_keys (heap s) object)
    = true ->
  congruence_body rec loose template object s
  = test_keys rec loose template object (own_keys (heap s) template) s.
Proof.
  intros Hobj Hkeys. unfold congruence_body, bind, get_heap. simpl.
  rewrite Hobj, Hkeys. reflexivity.
Qed.

Lemma get_member_object o key s props :
  cell_at (heap s) o = Some (Obj props) ->
  get_member o key s = Ret (get_prop props key) s.
Proof. intros H. unfold get_member. now rewrite H. Qed.

(** The visit of the template keys only reads the candidate at those
    keys. *)
Lemma test_keys_agree rec loose template o1 o2 props1 props2 keys h :
  frame_spec rec -> array_free h = true ->
  cell_at h o1 = Some (Obj props1) -> cell_at h o2 = Some (Obj props2) ->
  (forall k, In k keys -> get_prop props1 k = get_prop props2 k) ->
  forall s, heap s = h ->
    test_keys rec loose template o1 keys s
    = test_keys rec loose template o2 keys s.
Proof.
  intros Hrec Hfree H1 H2. induction keys as [|key rest IH]; intros Hagree s Hs;
    simpl; [reflexivity|].
  rewrite !bind_eq. destruct (get_member template key s) as [tn s1| |] eqn:Ht;
    try reflexivity.
  assert (s1 = s) as ->.
  { unfold get_member in Ht.
    destruct (cell_at (heap s) template) as [[| |]|]; congruence. }
  rewrite !bind_eq.
  rewrite (get_member_object o1 key s props1) by (rewrite Hs; exact H1).
  rewrite (get_member_object o2 key s props2) by (rewrite Hs; exact H2).
  rewrite (Hagree key) by now left. rewrite !bind_eq.
  pose proof (frame_test_node rec Hrec loose key tn (get_prop props2 key) s) as Hf.
  unfold keeps_heap, ensures in Hf.
  destruct (test_node rec loose key tn (get_prop props2 key) s)
    as [[] s2| |]; try reflexivity.
  apply IH.
  - intros k Hk. apply Hagree. now right.
  - rewrite Hf by (rewrite Hs; exact Hfree). exact Hs.
Qed.

Lemma key_sets_differ_match loose templateKeys objectKeys :
  key_sets_differ loose templateKeys objectKeys ->
  key_sets_match (truthy loose) templateKeys objectKeys = false.
Proof.
  unfold key_sets_match. intros [Hmiss | [Hloose Hextra]].
  - apply keys_subset_false in Hmiss. rewrite Hmiss. now destruct (truthy loose).
  - rewrite Hloose. apply andb_false_iff. right. now apply keys_subset_false.
Qed.

Lemma engine_key_mismatch rec (b : bool) template object loose s :
  b = truthy loose ->
  isPlainObject (heap s) object = true ->
  key_sets_differ loose (own_keys (heap s) template) (own_keys (heap s) object) ->
  congruence_body rec b template object s
  = Ret false (mkState (heap s)
                 (messages s ++ [InvalidKeys (own_keys (heap s) template)
                                             (own_keys (heap s) object)])).
Proof.
  intros -> Hobj Hdiff. apply key_sets_differ_match in Hdiff.
  now apply congruence_body_key_mismatch.
Qed.



(** ** arr *)

(** [_.every] over a predicate that decides [p] and leaves the store as
    it is (it may emit records). *)
Lemma every_decided rec (p : value -> bool) func h list :
  (forall x msgs, In x list ->
     exists msgs', i_call rec func x (mkState h msgs) = Ret (p x) (mkState h msgs')) ->
  forall msgs, exists msgs',
    every rec list func (mkState h msgs) = Ret (forallb p list) (mkState h msgs').
Proof.
  induction list as [|x rest IH]; intros H msgs; simpl.
  - exists msgs. reflexivity.
  - rewrite bind_eq. destruct (H x msgs) as [msgs1 ->]; [now left|].
    destruct (p x); simpl.
    + apply IH. intros y msgs2 Hy. apply H. now right.
    + exists msgs1. reflexivity.
Qed.

Lemma in_bounds_true length minItems maxItems :
  in_bounds length minItems maxItems = true <->
  (minItems <= Z.of_nat length)%Z
  /\ (forall mx, maxItems = Some mx -> (Z.of_nat length <= mx)%Z).
Proof.
  unfold in_bounds. rewrite andb_true_iff, Z.leb_le.
  destruct maxItems as [mx|].
  - rewrite Z.leb_le. split.
    + intros [H1 H2]. split; [exact H1|]. intros ? [= <-]. exact H2.
    + intros [H1 H2]. split; [exact H1|]. now apply H2.
  - split.
    + intros [H1 _]. split; [exact H1|]. discriminate.
    + intros [H1 _]. auto.
Qed.

(** C5: for a predicate [func] that decides [p] and leaves the store as it
    is, [arr(func, minItems, maxItems)] returns true on [v] exactly when
    [v] is an array whose length is at least [minItems] (0 when omitted)
    and at most [maxItems] (no bound when omitted) and all of whose items
    satisfy [p]; [arr(isString, 1, 3)] accepts ["a","b"] and rejects [],
    ["a","b","c","d"] and ["a", 5]. *)
Theorem arr_accepts_iff :
  (forall (fuel : nat) (func : value) (p : value -> bool)
          (minItems maxItems : option Z) (v f : value) (s s1 : state),
     arr func minItems maxItems s = Ret f s1 ->
     (forall x msgs, In x (array_items (heap s1) v) ->
        exists msgs',
          call fuel func x (mkState (heap s1) msgs)
          = Ret (p x) (mkState (heap s1) msgs')) ->
     exists b msgs',
       call (S fuel) f v s1 = Ret b (mkState (heap s1) msgs')
       /\ (b = true <->
           isArray (heap s1) v = true
           /\ (default_min minItems
               <= Z.of_nat (length (array_items (heap s1) v)))%Z
           /\ (forall mx, maxItems = Some mx ->
                 (Z.of_nat (length (array_items (heap s1) v)) <= mx)%Z)
           /\ (forall x, In x (array_items (heap s1) v) -> p x = true)))
  /\ (exists s, arr_example [VStr "a"; VStr "b"] empty_state = Ret true s)
  /\ (exists s, arr_example [] empty_state = Ret false s)
  /\ (exists s, arr_example [VStr "a"; VStr "b"; VStr "c"; VStr "d"] empty_state
                = Ret false s)
  /\ (exists s, arr_example [VStr "a"; VNum 5] empty_state = Ret false s).
Proof.
  split; [|repeat split; eexists; cbv; reflexivity].
  intros fuel func p minItems maxItems v f s s1 Harr Hp.
  unfold arr in Harr. rewrite new_function_eq in Harr.
  injection Harr as <- <-.
  erewrite call_function by apply cell_at_fresh. simpl.
  unfold bind at 1. simpl. set (h1 := heap s ++ _) in *.
  destruct (isArray h1 v) eqn:Harray; simpl.
  - destruct (in_bounds _ _ _) eqn:Hb.
    + destruct (every_decided (interp_at fuel) p func h1 (array_items h1 v) Hp
                  (messages s)) as [msgs' ->].
      eexists _, msgs'. split; [reflexivity|]. rewrite forallb_forall.
      apply in_bounds_true in Hb. destruct Hb as [Hmin Hmax].
      split; [intros H; auto | intros (_ & _ & _ & H); exact H].
    + exists false, (messages s). split; [reflexivity|]. split; [discriminate|].
      intros (_ & Hmin & Hmax & _).
      assert (in_bounds (length (array_items h1 v)) (default_min minItems)
                maxItems = true) by (apply in_bounds_true; auto).
      congruence.
  - exists false, (messages s). split; [reflexivity|]. split; [discriminate|].
    intros (H & _). discriminate.
Qed.

Lemma arr_accepts_iff_witness :
  exists b msgs',
    call 2 (VRef 2) (VRef 1) arr_example_state'
    = Ret b (mkState (heap arr_example_state') msgs')
    /\ (b = true <->
        isArray (heap arr_example_state') (VRef 1) = true
        /\ (default_min (Some 1%Z)
            <= Z.of_nat (length (array_items (heap arr_example_state')
                                   (VRef 1%nat))))%Z
        /\ (forall mx, Some 3%Z = Some mx ->
              (Z.of_nat (length (array_items (heap arr_example_state')
                                    (VRef 1%nat)))
               <= mx)%Z)
        /\ (forall x, In x (array_items (heap arr_example_state') (VRef 1)) ->
                      isString x = true)).
Proof.
  apply (proj1 arr_accepts_iff 1 (VRef 0) isString (Some 1%Z) (Some 3%Z)
           (VRef 1) (VRef 2) arr_example_state arr_example_state').
  - reflexivity.
  - simpl. intros x msgs [<-|[<-|[]]]; exists msgs; reflexivity.
Defined.

(** ** choice *)

(** [===] holds between a value and itself only: the same primitive or
    the same reference. *)
Lemma strict_equal_eq (a b : value) : strict_equal a b = true <-> a = b.
Proof.
  destruct a, b; simpl; split; intros H; try congruence; try discriminate.
  - apply Bool.eqb_prop in H. congruence.
  - injection H as ->. apply Bool.eqb_reflx.
  - apply Z.eqb_eq in H. congruence.
  - injection H as ->. apply Z.eqb_refl.
  - apply String.eqb_eq in H. congruence.
  - injection H as ->. apply String.eqb_refl.
  - apply Nat.eqb_eq in H. congruence.
  - injection H as ->. apply Nat.eqb_refl.
Qed.

Lemma isArray_alloc (h : list cell) c v :
  isArray h v = true ->
  isArray (h ++ [c]) v = true /\ array_items (h ++ [c]) v = array_items h v.
Proof.
  unfold isArray, array_items.
  destruct (cell_at h v) as [[| |]|] eqn:Hv; try discriminate. intros _.
  now rewrite (cell_at_alloc h c v _ Hv).
Qed.

(** C6, as amended: for an array [options], [choice(options)] returns
    true on [v] exactly when [v] is strictly equal ([===]) to an item of
    [options], that is when an item is the same primitive value as [v] or
    the same reference as [v]. *)
Theorem choice_accepts_iff_strictly_equal
    (fuel : nat) (options v f : value) (rest : list value) (s s1 : state) :
  isArray (heap s) options = true ->
  choice (options :: rest) s = Ret f s1 ->
  exists b,
    call (S fuel) f v s1 = Ret b s1
    /\ b = existsb (fun o => strict_equal o v) (array_items (heap s) options)
    /\ (b = true <-> In v (array_items (heap s) options)).
Proof.
  intros Harray Hchoice. unfold choice in Hchoice.
  rewrite new_function_eq in Hchoice. injection Hchoice as <- <-.
  erewrite call_function by apply cell_at_fresh.
  set (c := Fun _). destruct (isArray_alloc (heap s) c options Harray)
    as [Ha Hitems].
  cbn [code apply_closure arg nth]. unfold bind, get_heap.
  cbn [heap]. rewrite Ha, Hitems.
  eexists. split; [reflexivity|]. split; [reflexivity|].
  rewrite existsb_exists. split.
  - intros (o & Ho & Heq). apply strict_equal_eq in Heq. now subst.
  - intros H. exists v. split; [exact H|]. now apply strict_equal_eq.
Qed.

Lemma choice_accepts_iff_strictly_equal_witness :
  exists b,
    call 1 (VRef 1) (VStr "x")
      (mkState [Arr [VStr "x"; VStr "y"];
                Fun (mkFunc "choice" (Cchoice (VRef 0)) (Some [VRef 0]) None)] [])
    = Ret b
        (mkState [Arr [VStr "x"; VStr "y"];
                  Fun (mkFunc "choice" (Cchoice (VRef 0)) (Some [VRef 0]) None)] [])
    /\ b = existsb (fun o => strict_equal o (VStr "x")) [VStr "x"; VStr "y"]
    /\ (b = true <-> In (VStr "x") [VStr "x"; VStr "y"]).
Proof.
  apply (choice_accepts_iff_strictly_equal 0 (VRef 0) (VStr "x") (VRef 1) []
           (mkState [Arr [VStr "x"; VStr "y"]] [])); reflexivity.
Defined.

(** C6 fails as stated: an object equal by value to an option, but not
    the same object, is rejected. *)
Lemma choice_rejects_equal_object :
  exists s,
    choice_object_example empty_state = Ret (false, VRef 0, VRef 3) s
    /\ In (VRef 0) (array_items (heap s) (VRef 1))
    /\ value_equal 2 (heap s) (VRef 0) (VRef 3) = true.
Proof. eexists. repeat split; cbv; auto. Qed.

(** The examples of the specification for [choice]. *)
Example choice_examples :
  (exists s, choice_string_example (VStr "x") empty_state = Ret true s)
  /\ (exists s, choice_string_example (VStr "z") empty_state = Ret false s).
Proof. split; eexists; cbv; reflexivity. Qed.

(** ** A successful validation without [or] emits nothing *)

Lemma calm_alloc c s :
  orf s -> cell_ok (fun c => negb (is_or c)) c = true ->
  ensures (alloc c) s (calm s) orf.
Proof. intros Hs Hc. split; [now apply heap_ok_alloc | reflexivity]. Qed.

Lemma calm_new_function name c args extra s :
  orf s -> is_or c = false ->
  ensures (new_function name c args extra) s (calm s) orf.
Proof.
  intros Hs Hc. split; [|reflexivity]. apply heap_ok_alloc; [exact Hs|].
  simpl. now rewrite Hc.
Qed.

Lemma calm_get_member o key s :
  orf s -> ensures (get_member o key) s (calm s) orf.
Proof.
  intros Hs. unfold ensures, get_member.
  destruct (cell_at (heap s) o) as [[| |]|]; now split.
Qed.

Lemma calm_set_member o key v s :
  orf s -> ensures (set_member o key v) s (calm s) orf.
Proof.
  intros Hs. unfold ensures, set_member.
  destruct o; try now split.
  destruct (cell_at (heap s) (VRef l)) as [[| |]|]; try now split.
  split; [|reflexivity]. now apply heap_ok_store.
Qed.

Lemma calm_emit_false msg s s0 :
  orf s -> ensures (bind (emit msg) (fun _ => ret false)) s (quiet s0) orf.
Proof. intros Hs. split; [exact Hs | discriminate]. Qed.

Lemma quiet_ret b s : orf s -> ensures (ret b) s (quiet s) orf.
Proof. intros Hs. now split. Qed.

Lemma quiet_from s s1 (c : M bool) :
  messages s1 = messages s ->
  ensures c s1 (quiet s1) orf -> ensures c s1 (quiet s) orf.
Proof.
  intros Hm H. eapply ensures_weaken; [exact H| |auto].
  intros b s' [Ho Hb]. split; [exact Ho|]. intros ->. rewrite Hb; auto.
Qed.

Section Quiet.
Variable rec : interp.
Hypothesis Hrec : quiet_spec rec.

Lemma quiet_every list func s :
  orf s -> ensures (every rec list func) s (quiet s) orf.
Proof.
  revert s. induction list as [|x rest IH]; intros s Hs; simpl.
  - now apply quiet_ret.
  - eapply ensures_bind; [now apply (quiet_call rec Hrec)|].
    intros [] s1 [Ho Hm].
    + apply quiet_from; auto.
    + split; [exact Ho | discriminate].
Qed.

Lemma quiet_and_loop funcs v s :
  orf s -> ensures (and_loop rec funcs v) s (quiet s) orf.
Proof.
  revert s. induction funcs as [|f rest IH]; intros s Hs; simpl.
  - now apply quiet_ret.
  - eapply ensures_bind; [now apply (quiet_call rec Hrec)|].
    intros [] s1 [Ho Hm].
    + apply quiet_from; auto.
    + split; [exact Ho | discriminate].
Qed.

Lemma quiet_each_valid values func valid s :
  orf s ->
  ensures (each_valid rec values func valid) s
    (fun b s' => orf s' /\ (b = true -> valid = true
                                        /\ messages s' = messages s)) orf.
Proof.
  revert valid s. induction values as [|x rest IH]; intros valid s Hs; simpl.
  - split; auto.
  - eapply ensures_bind; [now apply (quiet_call rec Hrec)|].
    intros b s1 [Ho Hm].
    eapply ensures_weaken; [apply IH; exact Ho| |auto].
    intros b' s' [Ho' Hb']. split; [exact Ho'|]. intros ->.
    destruct (Hb' eq_refl) as [Hv Hm']. destruct b; [|discriminate].
    split; [exact Hv|]. rewrite Hm'. now apply Hm.
Qed.

Lemma quiet_apply_closure c v s :
  orf s -> is_or c = false -> ensures (apply_closure rec c v) s (quiet s) orf.
Proof.
  intros Hs Hc. destruct c; simpl; try discriminate.
  - now apply quiet_ret.
  - destruct (isUndefined v); [now apply quiet_ret|].
    now apply (quiet_call rec Hrec).
  - destruct (isNull v); [now apply quiet_ret|].
    now apply (quiet_call rec Hrec).
  - now apply quiet_ret.
  - apply ensures_get_heap.
    destruct (isPlainObject (heap s) v); simpl; [|now apply quiet_ret].
    destruct (truthy loose).
    + now apply (quiet_similar rec Hrec).
    + now apply (quiet_congruent rec Hrec).
  - apply ensures_get_heap.
    destruct (isArray (heap s) v); simpl; [|now apply quiet_ret].
    eapply ensures_bind; [now apply calm_alloc|]. intros obj2 s1 [Ho1 Hm1].
    eapply ensures_bind; [now apply (quiet_recObj rec Hrec)|].
    intros f s2 [Ho2 Hm2].
    apply quiet_from; [congruence|]. now apply (quiet_call rec Hrec).
  - apply ensures_get_heap.
    destruct (isArray (heap s) v); simpl; [|now apply quiet_ret].
    destruct (in_bounds _ _ _); [|now apply quiet_ret].
    now apply quiet_every.
  - apply ensures_get_heap.
    destruct (isPlainObject (heap s) v); simpl; [|now apply quiet_ret].
    destruct (in_bounds _ _ _); simpl; [|now apply quiet_ret].
    destruct (cell_at (heap s) v) as [[| |]|]; try now apply quiet_ret.
    eapply ensures_weaken; [now apply quiet_each_valid| |auto].
    intros b s' [Ho Hb]. split; [exact Ho|]. intros ->.
    now apply Hb.
  - now apply quiet_and_loop.
  - apply ensures_get_heap.
    destruct (isArray (heap s) options); [now apply quiet_ret|exact Hs].
  - now apply quiet_ret.
Qed.

Lemma quiet_call_body f v s :
  orf s -> ensures (call_body rec f v) s (quiet s) orf.
Proof.
  intros Hs. unfold call_body. apply ensures_get_heap.
  destruct (cell_at (heap s) f) as [[| |fn]|] eqn:Hf; try exact Hs.
  apply quiet_apply_closure; [exact Hs|].
  pose proof (heap_ok_function _ _ _ _ Hs Hf) as Hok. simpl in Hok.
  now destruct (is_or (code fn)).
Qed.

Lemma quiet_test_node loose key t o s :
  orf s -> ensures (test_node rec loose key t o) s (quiet s) orf.
Proof.
  intros Hs. unfold test_node. apply ensures_get_heap.
  destruct (isPlainObject (heap s) t).
  - destruct loose.
    + now apply (quiet_similar rec Hrec).
    + now apply (quiet_congruent rec Hrec).
  - eapply ensures_bind with (Q1 := quiet s).
    + destruct (isFunction (heap s) t); [|now apply quiet_ret].
      now apply (quiet_call rec Hrec).
    + intros [] s1 [Ho Hm].
      * split; [exact Ho|]. intros _. now apply Hm.
      * now apply calm_emit_false.
Qed.

Lemma quiet_test_keys loose t o keys s :
  orf s -> ensures (test_keys rec loose t o keys) s (quiet s) orf.
Proof.
  revert s. induction keys as [|key rest IH]; intros s Hs; simpl.
  - now apply quiet_ret.
  - eapply ensures_bind; [now apply calm_get_member|]. intros tn s1 [Ho1 Hm1].
    eapply ensures_bind; [now apply calm_get_member|]. intros on s2 [Ho2 Hm2].
    eapply ensures_bind; [now apply quiet_test_node|].
    intros [] s3 [Ho3 Hm3].
    + apply quiet_from; [|now apply IH]. rewrite Hm3 by reflexivity.
      congruence.
    + split; [exact Ho3 | discriminate].
Qed.

Lemma quiet_congruence_body loose t o s :
  orf s -> ensures (congruence_body rec loose t o) s (quiet s) orf.
Proof.
  intros Hs. unfold congruence_body. apply ensures_get_heap.
  destruct (isPlainObject (heap s) o); simpl; [|now apply quiet_ret].
  destruct (key_sets_match _ _ _); simpl.
  - now apply quiet_test_keys.
  - now apply calm_emit_false.
Qed.

Lemma calm_recObj_key t loose key s :
  orf s -> ensures (recObj_key rec t loose key) s (calm s) orf.
Proof.
  intros Hs. unfold recObj_key.
  eapply ensures_bind; [now apply calm_get_member|]. intros v s1 [Ho1 Hm1].
  apply ensures_get_heap.
  destruct (isPlainObject (heap s1) v).
  - eapply ensures_bind; [now apply (quiet_recObj rec Hrec)|].
    intros f s2 [Ho2 Hm2].
    eapply ensures_weaken; [now apply calm_set_member| |auto].
    intros ? s3 [Ho3 Hm3]. split; [exact Ho3 | congruence].
  - destruct (isArray (heap s1) v).
    + eapply ensures_bind; [now apply calm_alloc|]. intros obj1 s2 [Ho2 Hm2].
      eapply ensures_bind; [now apply calm_new_function|].
      intros f s3 [Ho3 Hm3].
      eapply ensures_weaken; [now apply calm_set_member| |auto].
      intros ? s4 [Ho4 Hm4]. split; [exact Ho4 | congruence].
    + split; [exact Ho1 | exact Hm1].
Qed.

Lemma calm_recObj_keys t loose keys s :
  orf s -> ensures (recObj_keys rec t loose keys) s (calm s) orf.
Proof.
  revert s. induction keys as [|key rest IH]; intros s Hs; simpl.
  - now split.
  - eapply ensures_bind; [now apply calm_recObj_key|]. intros ? s1 [Ho1 Hm1].
    eapply ensures_weaken; [now apply IH| |auto].
    intros ? s2 [Ho2 Hm2]. split; [exact Ho2 | congruence].
Qed.

Lemma calm_recObj_body t loose s :
  orf s -> ensures (recObj_body rec t loose) s (calm s) orf.
Proof.
  intros Hs. unfold recObj_body. apply ensures_get_heap.
  destruct (isPlainObject (heap s) t); simpl; [|exact Hs].
  eapply ensures_bind; [now apply calm_recObj_keys|]. intros ? s1 [Ho1 Hm1].
  eapply ensures_weaken; [now apply calm_new_function| |auto].
  intros f s2 [Ho2 Hm2]. split; [exact Ho2 | congruence].
Qed.

Lemma quiet_step : quiet_spec (step rec).
Proof.
  split; simpl; intros.
  - now apply quiet_call_body.
  - now apply quiet_congruence_body.
  - now apply quiet_congruence_body.
  - now apply calm_recObj_body.
Qed.
End Quiet.

Lemma quiet_bottom : quiet_spec bottom.
Proof. split; intros; exact I. Qed.

Lemma quiet_interp (fuel : nat) : quiet_spec (interp_at fuel).
Proof.
  induction fuel as [|n IH]; [apply quiet_bottom | now apply quiet_step].
Qed.

(** ** Records left by a successful validation *)

Lemma validateObject_clears fuel template object loose recursive s :
  validateObject fuel template object loose recursive s
  = validateObject fuel template object loose recursive (mkState (heap s) []).
Proof. reflexivity. Qed.

Lemma validateObject_quiet fuel template object loose recursive s :
  orf s ->
  ensures (validateObject fuel template object loose recursive) s
    (fun b s' => b = true -> messages s' = []) (fun _ => True).
Proof.
  intros Hs. unfold validateObject.
  set (s0 := mkState (heap s) []).
  assert (orf s0) as Hs0 by exact Hs.
  apply ensures_bind with (Q1 := fun _ s1 => s1 = s0); [reflexivity|].
  intros _ s1 ->. apply ensures_get_heap.
  cbn [heap s0]. destruct (isPlainObject (heap s) object); simpl.
  2:{ discriminate. }
  assert (forall c : M bool, ensures c s0 (quiet s0) orf ->
            ensures c s0 (fun b s' => b = true -> messages s' = [])
              (fun _ => True)) as Hweak.
  { intros c Hc. eapply ensures_weaken; [exact Hc| |auto].
    intros b s' [_ Hb] ->. now apply Hb. }
  destruct (truthy recursive).
  - apply Hweak. eapply ensures_bind.
    + apply (quiet_recObj _ (quiet_interp fuel)). exact Hs0.
    + intros f s1 [Ho1 Hm1]. apply quiet_from; [exact Hm1|].
      now apply (quiet_call _ (quiet_interp fuel)).
  - destruct (truthy loose); apply Hweak.
    + now apply (quiet_similar _ (quiet_interp fuel)).
    + now apply (quiet_congruent _ (quiet_interp fuel)).
Qed.




(** With [recursive = true] a repetition can fail: the array matcher of
    [recObj] normalizes the literal it was built from when it is first
    called, and here the candidate shares that literal. *)
Example repetition_after_normalization :
  exists s, shared_literal_example empty_state = Ret (true, false) s.
Proof. eexists. cbv. reflexivity. Qed.

(** ** At most one record without nested engine runs *)

Lemma ensures_bind_unchanged {A B} (c : M A) (k : A -> M B) s
    (Q : B -> state -> Prop) (E : state -> Prop) :
  ensures c s (unchanged s) (eq s) -> E s ->
  (forall a, ensures (k a) s Q E) ->
  ensures (bind c k) s Q E.
Proof.
  unfold ensures, unchanged. rewrite bind_eq. intros Hc HE Hk.
  destruct (c s) as [a s1|e s1|]; subst; auto. apply Hk.
Qed.

Lemma unchanged_get_member o key s :
  ensures (get_member o key) s (unchanged s) (eq s).
Proof.
  unfold ensures, get_member.
  destruct (cell_at (heap s) o) as [[| |]|]; reflexivity.
Qed.

Section Single.
Variable rec : interp.
Hypothesis Hrec : single_spec rec.

Lemma single_every list func s :
  mfree s -> ensures (every rec list func) s (unchanged s) (eq s).
Proof.
  intros Hs. induction list as [|x rest IH]; simpl; [reflexivity|].
  apply ensures_bind_unchanged;
    [now apply (single_call rec Hrec) | reflexivity |].
  intros []; [exact IH | reflexivity].
Qed.

Lemma single_each_valid values func valid s :
  mfree s -> ensures (each_valid rec values func valid) s (unchanged s) (eq s).
Proof.
  intros Hs. revert valid.
  induction values as [|x rest IH]; intros valid; simpl; [reflexivity|].
  apply ensures_bind_unchanged;
    [now apply (single_call rec Hrec) | reflexivity |].
  intros b. apply IH.
Qed.

Lemma single_and_loop funcs v s :
  mfree s -> ensures (and_loop rec funcs v) s (unchanged s) (eq s).
Proof.
  intros Hs. induction funcs as [|f rest IH]; simpl; [reflexivity|].
  apply ensures_bind_unchanged;
    [now apply (single_call rec Hrec) | reflexivity |].
  intros []; [exact IH | reflexivity].
Qed.

Lemma single_or_loop funcs v s :
  mfree s -> ensures (or_loop rec funcs v) s (unchanged s) (eq s).
Proof.
  intros Hs. induction funcs as [|f rest IH]; simpl; [reflexivity|].
  apply ensures_bind_unchanged;
    [now apply (single_call rec Hrec) | reflexivity |].
  intros []; [reflexivity | exact IH].
Qed.

Lemma single_apply_closure c v s :
  mfree s -> is_array_matcher c = false -> is_object_matcher c = false ->
  ensures (apply_closure rec c v) s (unchanged s) (eq s).
Proof.
  intros Hs Ha Ho. destruct c; simpl; try discriminate; try reflexivity.
  - destruct (isUndefined v); [reflexivity|].
    now apply (single_call rec Hrec).
  - destruct (isNull v); [reflexivity|].
    now apply (single_call rec Hrec).
  - apply ensures_get_heap.
    destruct (isArray (heap s) v); simpl; [|reflexivity].
    destruct (in_bounds _ _ _); [|reflexivity]. now apply single_every.
  - apply ensures_get_heap.
    destruct (isPlainObject (heap s) v); simpl; [|reflexivity].
    destruct (in_bounds _ _ _); simpl; [|reflexivity].
    destruct (cell_at (heap s) v) as [[| |]|]; try reflexivity.
    now apply single_each_valid.
  - now apply single_and_loop.
  - now apply single_or_loop.
  - apply ensures_get_heap.
    destruct (isArray (heap s) options); reflexivity.
Qed.

Lemma single_call_body f v s :
  mfree s -> ensures (call_body rec f v) s (unchanged s) (eq s).
Proof.
  intros Hs. unfold call_body. apply ensures_get_heap.
  destruct (cell_at (heap s) f) as [[| |fn]|] eqn:Hf; try reflexivity.
  pose proof (heap_ok_function _ _ _ _ Hs Hf) as Hok. simpl in Hok.
  apply andb_true_iff in Hok as [Ha Ho].
  apply single_apply_closure; [exact Hs| |].
  - now destruct (is_array_matcher (code fn)).
  - now destruct (is_object_matcher (code fn)).
Qed.

Lemma single_test_node loose key t o s :
  mfree s -> ensures (test_node rec loose key t o) s (single s) (eq s).
Proof.
  intros Hs. unfold test_node. apply ensures_get_heap.
  destruct (isPlainObject (heap s) t).
  - destruct loose.
    + now apply (single_similar rec Hrec).
    + now apply (single_congruent rec Hrec).
  - apply ensures_bind_unchanged; [|reflexivity|].
    + destruct (isFunction (heap s) t); [|reflexivity].
      now apply (single_call rec Hrec).
    + intros []; [reflexivity|]. split; [reflexivity|]. right.
      eexists. reflexivity.
Qed.

Lemma single_test_keys loose t o keys s :
  mfree s -> ensures (test_keys rec loose t o keys) s (single s) (eq s).
Proof.
  intros Hs. induction keys as [|key rest IH]; simpl; [reflexivity|].
  apply ensures_bind_unchanged;
    [apply unchanged_get_member | reflexivity |]. intros tn.
  apply ensures_bind_unchanged;
    [apply unchanged_get_member | reflexivity |]. intros on.
  eapply ensures_bind; [now apply single_test_node|].
  intros [] s1 H1; simpl in H1.
  - subst s1. exact IH.
  - exact H1.
Qed.

Lemma single_congruence_body loose t o s :
  mfree s -> ensures (congruence_body rec loose t o) s (single s) (eq s).
Proof.
  intros Hs. unfold congruence_body. apply ensures_get_heap.
  destruct (isPlainObject (heap s) o); simpl.
  2:{ split; [reflexivity|]. now left. }
  destruct (key_sets_match _ _ _); simpl.
  - now apply single_test_keys.
  - split; [reflexivity|]. right. eexists. reflexivity.
Qed.

Lemma single_step : single_spec (step rec).
Proof.
  split; simpl; intros.
  - now apply single_call_body.
  - now apply single_congruence_body.
  - now apply single_congruence_body.
Qed.
End Single.

Lemma single_bottom : single_spec bottom.
Proof. split; intros; exact I. Qed.

Lemma single_interp (fuel : nat) : single_spec (interp_at fuel).
Proof.
  induction fuel as [|n IH]; [apply single_bottom | now apply single_step].
Qed.

Lemma validateObject_single fuel template object loose recursive s :
  mfree s -> truthy recursive = false ->
  ensures (validateObject fuel template object loose recursive) s
    (fun b s' => heap s' = heap s
                 /\ if b then messages s' = []
                    else messages s' = [] \/ exists m, messages s' = [m])
    (fun s' => s' = mkState (heap s) []).
Proof.
  intros Hs Hrec. unfold validateObject.
  set (s0 := mkState (heap s) []).
  assert (mfree s0) as Hs0 by exact Hs.
  apply ensures_bind with (Q1 := fun _ s1 => s1 = s0); [reflexivity|].
  intros _ s1 ->. apply ensures_get_heap.
  cbn [heap s0]. destruct (isPlainObject (heap s) object); simpl.
  2:{ split; [reflexivity | left; reflexivity]. }
  rewrite Hrec.
  assert (forall c : M bool, ensures c s0 (single s0) (eq s0) ->
            ensures c s0
              (fun b s' => heap s' = heap s
                 /\ if b then messages s' = []
                    else messages s' = [] \/ exists m, messages s' = [m])
              (fun s' => s' = s0)) as Hweak.
  { intros c Hc. eapply ensures_weaken; [exact Hc| |auto].
    intros [] s' H; simpl in H.
    - subst s'. split; reflexivity.
    - destruct H as [Hh Hm]. split; [exact Hh|]. exact Hm. }
  destruct (truthy loose); apply Hweak.
  - now apply (single_similar _ (single_interp fuel)).
  - now apply (single_congruent _ (single_interp fuel)).
Qed.

(** C1, as amended: a validation call first discards the records of
    earlier calls and retains the records emitted during the call, in the
    order of emission.  One run of the engine emits at most one record:
    when no predicate of the store runs the engine itself (no [obj] or
    [recObj] predicate) and [recursive] is false, at most one record is
    retained when the call ends, and none when it returns true.
    [getInvalidDescription] returns [null] when no record is retained and
    renders the record when exactly one is retained. *)
Theorem validation_retains_emitted_records :
  (forall fuel template object loose recursive s,
     validateObject fuel template object loose recursive s
     = validateObject fuel template object loose recursive
         (mkState (heap s) []))
  /\ (forall fuel template object loose recursive s s',
        matcher_free (heap s) = true -> truthy recursive = false ->
        final_state (validateObject fuel template object loose recursive s)
          = Some s' ->
        length (getMessages s') <= 1
        /\ (validateObject fuel template object loose recursive s = Ret true s'
            -> getMessages s' = []))
  /\ (forall (JSON_stringify : list cell -> value -> string) fuel s,
        (getMessages s = [] ->
         getInvalidDescription JSON_stringify fuel s = Some None)
        /\ (forall m, getMessages s = [m] ->
              getInvalidDescription JSON_stringify fuel s
              = match describe JSON_stringify fuel (heap s) m with
                | Some message => Some (Some message)
                | None => None
                end)).
Proof.
  split; [|split].
  - intros. apply validateObject_clears.
  - intros fuel template object loose recursive s s' Hs Hrec Hfin.
    pose proof (validateObject_single fuel template object loose recursive s
                  Hs Hrec) as H.
    unfold ensures in H. unfold getMessages.
    destruct (validateObject fuel template object loose recursive s)
      as [b s1|e s1|]; simpl in Hfin; inversion Hfin; subst.
    + destruct H as [_ Hm]. destruct b.
      * rewrite Hm. split; [simpl; lia | auto].
      * split; [|discriminate].
        destruct Hm as [-> | [m ->]]; simpl; lia.
    + simpl. split; [lia | discriminate].
  - intros JSON_stringify fuel s. unfold getInvalidDescription. split.
    + intros ->. reflexivity.
    + intros m ->. reflexivity.
Qed.

Lemma validation_retains_emitted_records_witness :
  (length (getMessages (mkState (heap flat_example_state)
                          [InvalidKeys ["a"] ["a"; "b"]])) <= 1
   /\ (validateObject 1 (VRef 1) (VRef 3) VUndefined VUndefined
         flat_example_state
       = Ret true (mkState (heap flat_example_state)
                     [InvalidKeys ["a"] ["a"; "b"]])
       -> getMessages (mkState (heap flat_example_state)
                         [InvalidKeys ["a"] ["a"; "b"]]) = []))
  /\ getInvalidDescription (fun _ _ => EmptyString) 0
       (mkState (heap flat_example_state) [InvalidKeys ["a"] ["a"; "b"]])
     = Some (Some "invalid keys, expecting [a] but got [a,b] (unexpected: [b]) (missing: [])").
Proof.
  destruct validation_retains_emitted_records as (_ & Hone & Hdesc).
  split.
  - apply (Hone 1 (VRef 1) (VRef 3) VUndefined VUndefined flat_example_state);
      reflexivity.
  - apply (proj2 (Hdesc (fun _ _ => EmptyString) 0
                    (mkState (heap flat_example_state)
                       [InvalidKeys ["a"] ["a"; "b"]]))
             (InvalidKeys ["a"] ["a"; "b"])).
    reflexivity.
Defined.

(** C1 fails as stated: with the template [{a: obj({b: isString})}] and
    the candidate [{a: {b: 1}}] two records are retained when the call
    ends, the one of the nested [obj] (key [b]) and then the one of the
    enclosing level (key [a]); [getInvalidDescription] renders the first
    of them, not the most recent one. *)
Lemma nested_obj_retains_two_records :
  exists s,
    nested_obj_validation_example empty_state = Ret false s
    /\ getMessages s = [InvalidValue "b" (VRef 0) (VNum 1);
                        InvalidValue "a" (VRef 2) (VRef 4)]
    /\ getInvalidDescription (fun _ _ => "1") 1 s
       = Some (Some "invalid value for key 'b': '1'; expectation: isString()").
Proof. eexists. repeat split; cbv; reflexivity. Qed.

(** * Further properties of the module *)

(** ** The wrappers build the functions they are named after *)

Lemma is_closure_call fuel h f c v msgs :
  is_closure h f c ->
  call (S fuel) f v (mkState h msgs)
  = apply_closure (interp_at fuel) c v (mkState h msgs).
Proof.
  intros (fn & Hf & <-). now apply call_function.
Qed.

Lemma is_closure_call_state fuel s f c v :
  is_closure (heap s) f c ->
  call (S fuel) f v s = apply_closure (interp_at fuel) c v s.
Proof.
  intros (fn & Hf & <-). now apply call_function.
Qed.

Lemma is_closure_new_function name c args extra s :
  exists f s1, new_function name c args extra s = Ret f s1
               /\ is_closure (heap s1) f c
               /\ heap s1 = heap s ++ [Fun (mkFunc name c args extra)]
               /\ messages s1 = messages s.
Proof.
  eexists _, _. split; [apply new_function_eq|]. split; [|split; reflexivity].
  eexists. split; [apply cell_at_fresh | reflexivity].
Qed.

(** ** opt, nullable and exists *)

(** X1: [opt(nullable(func))] and [nullable(opt(func))] are the same
    predicate: both accept [undefined] and [null] without calling [func],
    and give any other value to [func]. *)
Theorem opt_nullable_commute
    (fuel : nat) (func n o o' n' v : value) (s : state) :
  is_closure (heap s) n (Cnullable func) ->
  is_closure (heap s) o (Coptional n) ->
  is_closure (heap s) o' (Coptional func) ->
  is_closure (heap s) n' (Cnullable o') ->
  call (S (S fuel)) o v s = call (S (S fuel)) n' v s
  /\ call (S (S fuel)) o v s
     = if isUndefined v || isNull v then Ret true s else call fuel func v s.
Proof.
  intros Hn Ho Ho' Hn'.
  rewrite (is_closure_call_state _ _ _ _ _ Ho).
  rewrite (is_closure_call_state _ _ _ _ _ Hn').
  cbn [apply_closure].
  change (i_call (interp_at (S fuel))) with (call (S fuel)).
  destruct v; cbn [isUndefined isNull orb];
    rewrite ?(is_closure_call_state _ _ _ _ _ Hn),
            ?(is_closure_call_state _ _ _ _ _ Ho');
    cbn [apply_closure isUndefined isNull]; auto.
Qed.

Lemma opt_nullable_commute_witness :
  call 2 (VRef 3) VNull wrappers_example_state
  = call 2 (VRef 5) VNull wrappers_example_state
  /\ call 2 (VRef 3) VNull wrappers_example_state
     = if isUndefined VNull || isNull VNull
       then Ret true wrappers_example_state
       else call 0 (VRef 0) VNull wrappers_example_state.
Proof.
  apply (opt_nullable_commute 0 (VRef 0) (VRef 2) (VRef 3) (VRef 4) (VRef 5)
           VNull wrappers_example_state);
    (eexists; split; [reflexivity | reflexivity]).
Defined.

(** X2: the function built by [exists] never looks at the argument
    [exists] was given: whatever the arguments, it returns true exactly on
    the values other than [undefined] and changes nothing.  So
    [opt(exists())] accepts every value and [nullable(exists())] accepts
    the same values as [exists()]. *)
Theorem exists_ignores_its_argument
    (fuel : nat) (arguments : list value) (e o n v : value) (s s1 : state) :
  exists_ arguments s = Ret e s1 ->
  (forall s2, is_closure (heap s2) e Cexists ->
     call (S fuel) e v s2 = Ret (negb (isUndefined v)) s2)
  /\ is_closure (heap s1) e Cexists
  /\ (forall s2, is_closure (heap s2) e Cexists ->
        is_closure (heap s2) o (Coptional e) ->
        call (S (S fuel)) o v s2 = Ret true s2)
  /\ (forall s2, is_closure (heap s2) e Cexists ->
        is_closure (heap s2) n (Cnullable e) ->
        call (S (S fuel)) n v s2 = Ret (negb (isUndefined v)) s2).
Proof.
  intros He. unfold exists_ in He. rewrite new_function_eq in He.
  injection He as <- <-.
  assert (forall k s2, is_closure (heap s2) (VRef (length (heap s))) Cexists ->
            call (S k) (VRef (length (heap s))) v s2
            = Ret (negb (isUndefined v)) s2) as Hcall.
  { intros k s2 H. now rewrite (is_closure_call_state _ _ _ _ _ H). }
  split; [apply Hcall|]. split.
  { eexists. split; [apply cell_at_fresh | reflexivity]. }
  split.
  - intros s2 H Ho. rewrite (is_closure_call_state _ _ _ _ _ Ho).
    cbn [apply_closure]. destruct (isUndefined v) eqn:Hv; [reflexivity|].
    change (i_call (interp_at (S fuel))) with (call (S fuel)).
    now rewrite Hcall by exact H.
  - intros s2 H Hn. rewrite (is_closure_call_state _ _ _ _ _ Hn).
    cbn [apply_closure]. destruct (isNull v) eqn:Hv.
    + now destruct v.
    + change (i_call (interp_at (S fuel))) with (call (S fuel)).
      now apply Hcall.
Qed.

Lemma exists_ignores_its_argument_witness :
  (forall s2, is_closure (heap s2) (VRef 0) Cexists ->
     call 1 (VRef 0) (VNum 7) s2 = Ret (negb (isUndefined (VNum 7))) s2)
  /\ is_closure [Fun (mkFunc "exists" Cexists (Some [VStr "unused"]) None)]
       (VRef 0) Cexists
  /\ (forall s2, is_closure (heap s2) (VRef 0) Cexists ->
        is_closure (heap s2) (VRef 7) (Coptional (VRef 0)) ->
        call 2 (VRef 7) (VNum 7) s2 = Ret true s2)
  /\ (forall s2, is_closure (heap s2) (VRef 0) Cexists ->
        is_closure (heap s2) (VRef 8) (Cnullable (VRef 0)) ->
        call 2 (VRef 8) (VNum 7) s2 = Ret (negb (isUndefined (VNum 7))) s2).
Proof.
  apply (exists_ignores_its_argument 0 [VStr "unused"] (VRef 0) (VRef 7)
           (VRef 8) (VNum 7) empty_state
           (mkState [Fun (mkFunc "exists" Cexists (Some [VStr "unused"]) None)]
              [])).
  reflexivity.
Defined.

(** ** and, or *)

Lemma and_loop_app rec fs gs v :
  forall s,
    and_loop rec (fs ++ gs) v s
    = bind (and_loop rec fs v)
        (fun b => if b then and_loop rec gs v else ret false) s.
Proof.
  induction fs as [|f fs IH]; intros s; simpl.
  - rewrite bind_eq. reflexivity.
  - rewrite !bind_eq. destruct (i_call rec f v s) as [[] s1| |]; try reflexivity.
    rewrite IH, bind_eq. reflexivity.
Qed.

Lemma or_loop_app rec fs gs v :
  forall s,
    or_loop rec (fs ++ gs) v s
    = bind (or_loop rec fs v)
        (fun b => if b then ret true else or_loop rec gs v) s.
Proof.
  induction fs as [|f fs IH]; intros s; simpl.
  - rewrite bind_eq. reflexivity.
  - rewrite !bind_eq. destruct (i_call rec f v s) as [[] s1| |]; try reflexivity.
    rewrite IH, bind_eq. reflexivity.
Qed.

Lemma and_loop_decided fuel h funcs ps v :
  Forall2 (fun f p => decides fuel h f p v) funcs ps ->
  forall msgs, exists msgs',
    and_loop (interp_at fuel) funcs v (mkState h msgs)
    = Ret (forallb (fun p => p v) ps) (mkState h msgs').
Proof.
  induction 1 as [|f p funcs ps Hf _ IH]; intros msgs; simpl.
  - eauto.
  - rewrite bind_eq. destruct (Hf msgs) as [msgs1 H1].
    unfold call in H1. rewrite H1. destruct (p v); simpl; eauto.
Qed.

Lemma or_loop_decided fuel h funcs ps v :
  Forall2 (fun f p => decides fuel h f p v) funcs ps ->
  forall msgs, exists msgs',
    or_loop (interp_at fuel) funcs v (mkState h msgs)
    = Ret (existsb (fun p => p v) ps) (mkState h msgs').
Proof.
  induction 1 as [|f p funcs ps Hf _ IH]; intros msgs; simpl.
  - eauto.
  - rewrite bind_eq. destruct (Hf msgs) as [msgs1 H1].
    unfold call in H1. rewrite H1. destruct (p v); simpl; eauto.
Qed.

(** X3: when every argument of [and] (of [or]) decides its test on [v],
    [and(f1, ..., fn)(v)] is the conjunction and [or(f1, ..., fn)(v)] the
    disjunction of the tests, and the store is left as it was. *)
Theorem and_or_of_deciding_predicates
    (fuel : nat) (h : list cell) (fand f_or : value) (funcs : list value)
    (ps : list (value -> bool)) (v : value) :
  is_closure h fand (Cand funcs) -> is_closure h f_or (Cor funcs) ->
  Forall2 (fun f p => decides fuel h f p v) funcs ps ->
  decides (S fuel) h fand (fun v => forallb (fun p => p v) ps) v
  /\ decides (S fuel) h f_or (fun v => existsb (fun p => p v) ps) v.
Proof.
  intros Hand Hor Hps. split; intros msgs.
  - rewrite (is_closure_call _ _ _ _ _ _ Hand). now apply and_loop_decided.
  - rewrite (is_closure_call _ _ _ _ _ _ Hor). now apply or_loop_decided.
Qed.

Lemma native_decides fuel h f fn (p : value -> bool) v :
  cell_at h f = Some (Fun fn) -> code fn = Native p -> decides (S fuel) h f p v.
Proof.
  intros Hf Hc msgs. exists msgs.
  rewrite (call_function _ _ _ _ fn) by exact Hf. now rewrite Hc.
Qed.

Lemma and_or_of_deciding_predicates_witness :
  decides 2 (heap logic_example_state) (VRef 2)
    (fun v => forallb (fun p => p v) [isString; isNumber]) (VStr "a")
  /\ decides 2 (heap logic_example_state) (VRef 3)
       (fun v => existsb (fun p => p v) [isString; isNumber]) (VStr "a").
Proof.
  apply (and_or_of_deciding_predicates 1 (heap logic_example_state)
           (VRef 2) (VRef 3) [VRef 0; VRef 1] [isString; isNumber] (VStr "a")).
  - eexists. split; reflexivity.
  - eexists. split; reflexivity.
  - repeat constructor; eapply native_decides; reflexivity.
Defined.

(** X4: [and] stops at the first argument that returns false and [or] at
    the first that returns true: the arguments after it are not called,
    whatever they are (they need not even be functions). *)
Theorem and_or_short_circuit
    (fuel : nat) (h : list cell) (f g : value) (before after : list value)
    (v : value) :
  (is_closure h f (Cand (before ++ g :: after)) ->
   Forall (fun b => decides fuel h b (fun _ => true) v) before ->
   decides fuel h g (fun _ => false) v ->
   decides (S fuel) h f (fun _ => false) v)
  /\ (is_closure h f (Cor (before ++ g :: after)) ->
      Forall (fun b => decides fuel h b (fun _ => false) v) before ->
      decides fuel h g (fun _ => true) v ->
      decides (S fuel) h f (fun _ => true) v).
Proof.
  split; intros Hf Hbefore Hg msgs;
    rewrite (is_closure_call _ _ _ _ _ _ Hf); cbn [apply_closure].
  - rewrite and_loop_app, bind_eq.
    destruct (and_loop_decided fuel h before (map (fun _ _ => true) before) v)
      with (msgs := msgs) as [msgs1 ->].
    { clear -Hbefore. induction Hbefore; constructor; auto. }
    assert (forallb (fun p : value -> bool => p v)
              (map (fun _ _ => true) before) = true) as ->
      by (clear; induction before; simpl; auto).
    simpl. rewrite bind_eq. destruct (Hg msgs1) as [msgs2 H2].
    unfold call in H2. rewrite H2. eauto.
  - rewrite or_loop_app, bind_eq.
    destruct (or_loop_decided fuel h before (map (fun _ _ => false) before) v)
      with (msgs := msgs) as [msgs1 ->].
    { clear -Hbefore. induction Hbefore; constructor; auto. }
    assert (existsb (fun p : value -> bool => p v)
              (map (fun _ _ => false) before) = false) as ->
      by (clear; induction before; simpl; auto).
    simpl. rewrite bind_eq. destruct (Hg msgs1) as [msgs2 H2].
    unfold call in H2. rewrite H2. eauto.
Qed.

Lemma and_or_short_circuit_witness :
  decides 2 (heap logic_example_state) (VRef 4) (fun _ => false) (VStr "a")
  /\ decides 2 (heap logic_example_state) (VRef 5) (fun _ => true) (VStr "a").
Proof.
  split.
  - apply (proj1 (and_or_short_circuit 1 (heap logic_example_state) (VRef 4)
                    (VRef 1) [] [VRef 0; VNum 0] (VStr "a"))).
    + eexists. split; reflexivity.
    + constructor.
    + intros msgs. exists msgs. reflexivity.
  - apply (proj2 (and_or_short_circuit 1 (heap logic_example_state) (VRef 5)
                    (VRef 0) [] [VNum 0] (VStr "a"))).
    + eexists. split; reflexivity.
    + constructor.
    + intros msgs. exists msgs. reflexivity.
Defined.


(** ** What validation never changes *)

Lemma evolves_refl s : evolves s s.
Proof. intros l [props| |] H; eauto. Qed.

Lemma evolves_trans s1 s2 s3 : evolves s1 s2 -> evolves s2 s3 -> evolves s1 s3.
Proof.
  intros H12 H23 l c H. specialize (H12 l c H). destruct c as [props| |].
  - destruct H12 as (p2 & H2 & E2). destruct (H23 l _ H2) as (p3 & H3 & E3).
    exists p3. split; congruence.
  - exact (H23 l _ H12).
  - exact (H23 l _ H12).
Qed.

Lemma evolves_same_heap s s' : heap s' = heap s -> evolves s s'.
Proof. intros E l c H. rewrite E. destruct c; eauto. Qed.

Lemma evolves_alloc_heap s s' c : heap s' = heap s ++ [c] -> evolves s s'.
Proof.
  intros E l c' H. rewrite E.
  pose proof (lookup_app_l_Some (heap s) [c] l c' H) as H'.
  destruct c'; eauto.
Qed.

Lemma evolves_is_closure s s' f c :
  evolves s s' -> is_closure (heap s) f c -> is_closure (heap s') f c.
Proof.
  intros He (fn & Hf & Hc). exists fn. split; [|exact Hc].
  destruct f; try discriminate. exact (He l _ Hf).
Qed.

Lemma evolves_kinds s s' v :
  evolves s s' ->
  (isPlainObject (heap s) v = true ->
   isPlainObject (heap s') v = true
   /\ own_keys (heap s') v = own_keys (heap s) v)
  /\ (isArray (heap s) v = true ->
      isArray (heap s') v = true
      /\ array_items (heap s') v = array_items (heap s) v)
  /\ (isFunction (heap s) v = true -> isFunction (heap s') v = true).
Proof.
  intros He. unfold isPlainObject, isArray, isFunction, own_keys, array_items,
    cell_at.
  destruct v; try (repeat split; discriminate).
  destruct (heap s !! l) as [[props|items|fn]|] eqn:Hl;
    try (repeat split; discriminate);
    pose proof (He l _ Hl) as H; simpl in H.
  - destruct H as (props' & -> & ->). repeat split; discriminate.
  - rewrite H. repeat split; discriminate.
  - rewrite H. repeat split; discriminate.
Qed.

Lemma advances_ret {A} (a : A) s : advances (ret a) s.
Proof. apply evolves_refl. Qed.

Lemma advances_throw {A} e s : advances (@throw A e) s.
Proof. apply evolves_refl. Qed.

Lemma advances_bind {A B} (c : M A) (k : A -> M B) s :
  advances c s -> (forall a s1, evolves s s1 -> advances (k a) s1) ->
  advances (bind c k) s.
Proof.
  unfold advances. intros Hc Hk.
  apply ensures_bind with (Q1 := fun _ => evolves s); [exact Hc|].
  intros a s1 H1. eapply ensures_weaken; [apply Hk; exact H1| |];
    cbv beta; intros; eapply evolves_trans; eassumption.
Qed.

Lemma advances_get_heap {A} (k : list cell -> M A) s :
  advances (k (heap s)) s -> advances (bind get_heap k) s.
Proof. intros H. exact H. Qed.

Lemma advances_same_heap {A} (c : M A) s :
  (forall s', final_state (c s) = Some s' -> heap s' = heap s) ->
  advances c s.
Proof.
  unfold advances, ensures. intros H.
  destruct (c s); auto; apply evolves_same_heap, H; reflexivity.
Qed.

Lemma advances_emit msg s : advances (emit msg) s.
Proof. now apply evolves_same_heap. Qed.

Lemma advances_get_member o key s : advances (get_member o key) s.
Proof.
  unfold advances, ensures, get_member.
  destruct (cell_at (heap s) o) as [[| |]|]; apply evolves_refl.
Qed.

Lemma advances_alloc c s : advances (alloc c) s.
Proof. now apply (evolves_alloc_heap _ _ c). Qed.

Lemma advances_new_function name c args extra s :
  advances (new_function name c args extra) s.
Proof.
  unfold advances, ensures. rewrite new_function_eq.
  now apply (evolves_alloc_heap _ _ (Fun (mkFunc name c args extra))).
Qed.

Lemma advances_set_member o key v s :
  In key (own_keys (heap s) o) -> advances (set_member o key v) s.
Proof.
  unfold advances, ensures, set_member, own_keys. intros Hkey.
  destruct o; try apply evolves_refl.
  simpl in *. destruct (heap s !! l) as [[props| |]|] eqn:Hl;
    try apply evolves_refl.
  intros l' c Hl'. simpl.
  destruct (decide (l = l')) as [<-|Hne].
  - rewrite Hl in Hl'. injection Hl' as <-.
    exists (set_prop props key v). split.
    + apply list_lookup_insert_eq. eapply lookup_lt_Some. exact Hl.
    + now apply set_prop_keys.
  - rewrite list_lookup_insert_ne by exact Hne. destruct c; eauto.
Qed.

Section Evolves.
Variable rec : interp.
Hypothesis Hrec : evolves_spec rec.

Lemma advances_every list func s : advances (every rec list func) s.
Proof.
  revert s. induction list as [|x rest IH]; intros s; simpl.
  - apply advances_ret.
  - apply advances_bind; [apply (evolves_call rec Hrec)|].
    intros [] s1 _; [apply IH | apply advances_ret].
Qed.

Lemma advances_each_valid values func valid s :
  advances (each_valid rec values func valid) s.
Proof.
  revert valid s. induction values as [|x rest IH]; intros valid s; simpl.
  - apply advances_ret.
  - apply advances_bind; [apply (evolves_call rec Hrec)|].
    intros b s1 _. apply IH.
Qed.

Lemma advances_and_loop funcs v s : advances (and_loop rec funcs v) s.
Proof.
  revert s. induction funcs as [|f rest IH]; intros s; simpl.
  - apply advances_ret.
  - apply advances_bind; [apply (evolves_call rec Hrec)|].
    intros [] s1 _; [apply IH | apply advances_ret].
Qed.

Lemma advances_or_loop funcs v s : advances (or_loop rec funcs v) s.
Proof.
  revert s. induction funcs as [|f rest IH]; intros s; simpl.
  - apply advances_ret.
  - apply advances_bind; [apply (evolves_call rec Hrec)|].
    intros [] s1 _; [apply advances_ret | apply IH].
Qed.

Lemma advances_apply_closure c v s : advances (apply_closure rec c v) s.
Proof.
  destruct c; simpl; try apply advances_ret.
  - destruct (isUndefined v); [apply advances_ret|].
    apply (evolves_call rec Hrec).
  - destruct (isNull v); [apply advances_ret|].
    apply (evolves_call rec Hrec).
  - apply advances_get_heap.
    destruct (isPlainObject (heap s) v); simpl; [|apply advances_ret].
    destruct (truthy loose).
    + apply (evolves_similar rec Hrec).
    + apply (evolves_congruent rec Hrec).
  - apply advances_get_heap.
    destruct (isArray (heap s) v); simpl; [|apply advances_ret].
    apply advances_bind; [apply advances_alloc|]. intros obj2 s1 _.
    apply advances_bind; [apply (evolves_recObj rec Hrec)|]. intros f s2 _.
    apply (evolves_call rec Hrec).
  - apply advances_get_heap.
    destruct (isArray (heap s) v); simpl; [|apply advances_ret].
    destruct (in_bounds _ _ _); [|apply advances_ret].
    apply advances_every.
  - apply advances_get_heap.
    destruct (isPlainObject (heap s) v); simpl; [|apply advances_ret].
    destruct (in_bounds _ _ _); simpl; [|apply advances_ret].
    destruct (cell_at (heap s) v) as [[| |]|]; try apply advances_ret.
    apply advances_each_valid.
  - apply advances_and_loop.
  - apply advances_or_loop.
  - apply advances_get_heap.
    destruct (isArray (heap s) options);
      [apply advances_ret | apply advances_throw].
Qed.

Lemma advances_call_body f v s : advances (call_body rec f v) s.
Proof.
  unfold call_body. apply advances_get_heap.
  destruct (cell_at (heap s) f) as [[| |fn]|]; try apply advances_throw.
  apply advances_apply_closure.
Qed.

Lemma advances_test_node loose key t o s :
  advances (test_node rec loose key t o) s.
Proof.
  unfold test_node. apply advances_get_heap.
  destruct (isPlainObject (heap s) t).
  - destruct loose.
    + apply (evolves_similar rec Hrec).
    + apply (evolves_congruent rec Hrec).
  - apply advances_bind.
    + destruct (isFunction (heap s) t); [|apply advances_ret].
      apply (evolves_call rec Hrec).
    + intros [] s1 _; [apply advances_ret|].
      apply advances_bind; [apply advances_emit|]. intros. apply advances_ret.
Qed.

Lemma advances_test_keys loose t o keys s :
  advances (test_keys rec loose t o keys) s.
Proof.
  revert s. induction keys as [|key rest IH]; intros s; simpl.
  - apply advances_ret.
  - apply advances_bind; [apply advances_get_member|]. intros tn s1 _.
    apply advances_bind; [apply advances_get_member|]. intros on s2 _.
    apply advances_bind; [apply advances_test_node|].
    intros [] s3 _; [apply IH | apply advances_ret].
Qed.

Lemma advances_congruence_body loose t o s :
  advances (congruence_body rec loose t o) s.
Proof.
  unfold congruence_body. apply advances_get_heap.
  destruct (isPlainObject (heap s) o); simpl; [|apply advances_ret].
  destruct (key_sets_match _ _ _); simpl.
  - apply advances_test_keys.
  - apply advances_bind; [apply advances_emit|]. intros. apply advances_ret.
Qed.

Lemma advances_recObj_key t loose key s :
  In key (own_keys (heap s) t) -> advances (recObj_key rec t loose key) s.
Proof.
  intros Hkey. unfold recObj_key.
  assert (isPlainObject (heap s) t = true) as Hplain.
  { unfold own_keys in Hkey. unfold isPlainObject.
    destruct (cell_at (heap s) t) as [[| |]|]; auto; contradiction. }
  assert (forall f s1, evolves s s1 -> advances (set_member t key f) s1)
    as Hset.
  { intros f s1 He. apply advances_set_member.
    destruct (proj1 (evolves_kinds s s1 t He) Hplain) as [_ ->]. exact Hkey. }
  apply advances_bind; [apply advances_get_member|]. intros v s1 He1.
  apply advances_get_heap.
  destruct (isPlainObject (heap s1) v).
  - apply advances_bind; [apply (evolves_recObj rec Hrec)|]. intros f s2 He2.
    apply Hset. eapply evolves_trans; eassumption.
  - destruct (isArray (heap s1) v); [|apply advances_ret].
    apply advances_bind; [apply advances_alloc|]. intros obj1 s2 He2.
    apply advances_bind; [apply advances_new_function|]. intros f s3 He3.
    apply Hset. eapply evolves_trans; [|exact He3].
    eapply evolves_trans; eassumption.
Qed.

Lemma advances_recObj_keys t loose keys s :
  (forall k, In k keys -> In k (own_keys (heap s) t)) ->
  advances (recObj_keys rec t loose keys) s.
Proof.
  revert s. induction keys as [|key rest IH]; intros s Hkeys; simpl.
  - apply advances_ret.
  - apply advances_bind; [apply advances_recObj_key, Hkeys; now left|].
    intros ? s1 He1. apply IH. intros k Hk.
    assert (isPlainObject (heap s) t = true) as Hplain.
    { specialize (Hkeys key (or_introl eq_refl)).
      unfold own_keys in Hkeys. unfold isPlainObject.
      destruct (cell_at (heap s) t) as [[| |]|]; auto; contradiction. }
    destruct (proj1 (evolves_kinds s s1 t He1) Hplain) as [_ ->].
    apply Hkeys. now right.
Qed.

Lemma advances_recObj_body t loose s : advances (recObj_body rec t loose) s.
Proof.
  unfold recObj_body. apply advances_get_heap.
  destruct (isPlainObject (heap s) t); simpl; [|apply advances_throw].
  apply advances_bind; [apply advances_recObj_keys; auto|].
  intros ? s1 _. apply advances_new_function.
Qed.

Lemma evolves_step : evolves_spec (step rec).
Proof.
  split; simpl; intros.
  - apply advances_call_body.
  - apply advances_congruence_body.
  - apply advances_congruence_body.
  - apply advances_recObj_body.
Qed.
End Evolves.

Lemma evolves_bottom : evolves_spec bottom.
Proof. split; intros; exact I. Qed.

Lemma evolves_interp (fuel : nat) : evolves_spec (interp_at fuel).
Proof.
  induction fuel as [|n IH]; [apply evolves_bottom | now apply evolves_step].
Qed.

Lemma advances_validateObject fuel template object loose recursive s :
  advances (validateObject fuel template object loose recursive) s.
Proof.
  unfold validateObject.
  apply advances_bind; [now apply evolves_same_heap|]. intros _ s1 _.
  apply advances_get_heap.
  destruct (isPlainObject (heap s1) object); simpl; [|apply advances_ret].
  destruct (truthy recursive).
  - apply advances_bind; [apply (evolves_recObj _ (evolves_interp fuel))|].
    intros f s2 _. apply (evolves_call _ (evolves_interp fuel)).
  - destruct (truthy loose).
    + apply (evolves_similar _ (evolves_interp fuel)).
    + apply (evolves_congruent _ (evolves_interp fuel)).
Qed.

(** X5: no validation, recursive or not, ever changes a function object
    or an array, or adds or removes a key of a plain object: whatever
    [validateObject], a predicate call or [recObj] does, every function
    and array of the store is the same afterwards and every plain object
    has the keys it had (only values of existing keys are overwritten, and
    new objects are allocated). *)
Theorem validation_keeps_functions_arrays_and_keys
    (fuel : nat) (template object loose recursive f v : value) (s s' : state) :
  (final_state (validateObject fuel template object loose recursive s) = Some s'
   \/ final_state (call fuel f v s) = Some s'
   \/ final_state (recObj fuel template loose s) = Some s') ->
  evolves s s'
  /\ (forall a, isArray (heap s) a = true ->
        isArray (heap s') a = true
        /\ array_items (heap s') a = array_items (heap s) a)
  /\ (forall o, isPlainObject (heap s) o = true ->
        isPlainObject (heap s') o = true
        /\ own_keys (heap s') o = own_keys (heap s) o)
  /\ (forall g c, is_closure (heap s) g c -> is_closure (heap s') g c).
Proof.
  intros H.
  assert (evolves s s') as He.
  { assert (forall A (c : M A), advances c s ->
              final_state (c s) = Some s' -> evolves s s') as Hfin.
    { intros A c Hc Hf. unfold advances, ensures in Hc.
      destruct (c s); simpl in Hf; inversion Hf; subst; exact Hc. }
    destruct H as [H | [H | H]]; eapply Hfin; try exact H.
    - apply advances_validateObject.
    - apply (evolves_call _ (evolves_interp fuel)).
    - apply (evolves_recObj _ (evolves_interp fuel)). }
  split; [exact He|]. split; [|split].
  - intros a. apply (evolves_kinds s s' a He).
  - intros o. apply (evolves_kinds s s' o He).
  - intros g c. now apply evolves_is_closure.
Qed.

Lemma validation_keeps_functions_arrays_and_keys_witness :
  evolves nested_literal_state nested_literal_state'
  /\ own_keys (heap nested_literal_state') (VRef 1)
     = own_keys (heap nested_literal_state) (VRef 1).
Proof.
  destruct (validation_keeps_functions_arrays_and_keys 2 (VRef 1) VUndefined
              VUndefined VUndefined VUndefined VUndefined
              nested_literal_state nested_literal_state'
              (or_intror (or_intror eq_refl))) as (He & _ & Hkeys & _).
  split; [exact He|]. now apply Hkeys.
Defined.

(** X6: nesting does not change [and] and [or]:
    [and(and(f1, ..), and(g1, ..))] gives on every value the outcome, the
    records and the final state of [and(f1, .., g1, ..)], and likewise for
    [or], whatever the arguments are and do. *)
Theorem and_or_flatten
    (fuel : nat) (fs gs : list value) (inner1 inner2 nested flat v : value)
    (s : state) :
  (is_closure (heap s) inner1 (Cand fs) ->
   is_closure (heap s) inner2 (Cand gs) ->
   is_closure (heap s) nested (Cand [inner1; inner2]) ->
   is_closure (heap s) flat (Cand (fs ++ gs)) ->
   call (S (S fuel)) nested v s = call (S fuel) flat v s)
  /\ (is_closure (heap s) inner1 (Cor fs) ->
      is_closure (heap s) inner2 (Cor gs) ->
      is_closure (heap s) nested (Cor [inner1; inner2]) ->
      is_closure (heap s) flat (Cor (fs ++ gs)) ->
      call (S (S fuel)) nested v s = call (S fuel) flat v s).
Proof.
  split; intros H1 H2 Hn Hf;
    rewrite (is_closure_call_state _ _ _ _ _ Hn),
            (is_closure_call_state _ _ _ _ _ Hf);
    cbn [apply_closure and_loop or_loop];
    change (i_call (interp_at (S fuel))) with (call (S fuel)).
  - rewrite and_loop_app, !bind_eq.
    rewrite (is_closure_call_state _ _ _ _ _ H1). cbn [apply_closure].
    pose proof (advances_and_loop _ (evolves_interp fuel) fs v s) as Hadv.
    unfold advances, ensures in Hadv.
    destruct (and_loop (interp_at fuel) fs v s) as [[] s1|e s1|];
      try reflexivity.
    rewrite bind_eq.
    rewrite (is_closure_call_state _ s1 _ (Cand gs))
      by (eapply evolves_is_closure; eassumption).
    cbn [apply_closure].
    destruct (and_loop (interp_at fuel) gs v s1) as [[] s2|e s2|]; reflexivity.
  - rewrite or_loop_app, !bind_eq.
    rewrite (is_closure_call_state _ _ _ _ _ H1). cbn [apply_closure].
    pose proof (advances_or_loop _ (evolves_interp fuel) fs v s) as Hadv.
    unfold advances, ensures in Hadv.
    destruct (or_loop (interp_at fuel) fs v s) as [[] s1|e s1|];
      try reflexivity.
    rewrite bind_eq.
    rewrite (is_closure_call_state _ s1 _ (Cor gs))
      by (eapply evolves_is_closure; eassumption).
    cbn [apply_closure].
    destruct (or_loop (interp_at fuel) gs v s1) as [[] s2|e s2|]; reflexivity.
Qed.

Lemma and_or_flatten_witness :
  call 3 (VRef 8) (VStr "a") logic_example_state
  = call 2 (VRef 2) (VStr "a") logic_example_state
  /\ call 3 (VRef 11) (VStr "a") logic_example_state
     = call 2 (VRef 3) (VStr "a") logic_example_state.
Proof.
  split.
  - apply (proj1 (and_or_flatten 1 [VRef 0] [VRef 1] (VRef 6) (VRef 7)
                    (VRef 8) (VRef 2) (VStr "a") logic_example_state));
      (eexists; split; reflexivity).
  - apply (proj2 (and_or_flatten 1 [VRef 0] [VRef 1] (VRef 9) (VRef 10)
                    (VRef 11) (VRef 3) (VStr "a") logic_example_state));
      (eexists; split; reflexivity).
Defined.

(** ** arr and hash *)

Lemma each_valid_decided rec (p : value -> bool) func h values :
  (forall x msgs, In x values ->
     exists msgs', i_call rec func x (mkState h msgs) = Ret (p x) (mkState h msgs')) ->
  forall valid msgs, exists msgs',
    each_valid rec values func valid (mkState h msgs)
    = Ret (valid && forallb p values) (mkState h msgs').
Proof.
  induction values as [|x rest IH]; intros H valid msgs; simpl.
  - exists msgs. now rewrite andb_true_r.
  - rewrite bind_eq. destruct (H x msgs) as [msgs1 ->]; [now left|].
    destruct (IH (fun y m Hy => H y m (or_intror Hy))
                (if p x then valid else false) msgs1) as [msgs2 ->].
    exists msgs2. destruct (p x), valid; reflexivity.
Qed.

Lemma own_keys_values_length h v :
  length (own_keys h v) = length (own_values h v).
Proof.
  unfold own_keys, own_values.
  destruct (cell_at h v) as [[props| |]|]; try reflexivity.
  now rewrite !length_map.
Qed.

(** X7: for a predicate [func] that decides [p] and leaves the store as it
    is, [hash(func, minItems, maxItems)] returns true on [v] exactly when
    [v] is a plain object whose number of own keys is at least [minItems]
    (0 when omitted) and at most [maxItems] (no bound when omitted) and all
    of whose values satisfy [p]; the keys themselves are not looked at.
    Objects with an own key [length] are left out: lodash's [_.size] and
    [_.each] may treat them as array-like. *)
Theorem hash_accepts_iff
    (fuel : nat) (func : value) (p : value -> bool)
    (minItems maxItems : option Z) (v f : value) (s s1 : state) :
  hash func minItems maxItems s = Ret f s1 ->
  ~ In "length" (own_keys (heap s1) v) ->
  (forall x, In x (own_values (heap s1) v) -> decides fuel (heap s1) func p x) ->
  exists b msgs',
    call (S fuel) f v s1 = Ret b (mkState (heap s1) msgs')
    /\ (b = true <->
        isPlainObject (heap s1) v = true
        /\ (default_min minItems
            <= Z.of_nat (length (own_values (heap s1) v)))%Z
        /\ (forall mx, maxItems = Some mx ->
              (Z.of_nat (length (own_values (heap s1) v)) <= mx)%Z)
        /\ (forall x, In x (own_values (heap s1) v) -> p x = true)).
Proof.
  intros Hhash _ Hp. unfold hash in Hhash. rewrite new_function_eq in Hhash.
  injection Hhash as <- <-.
  erewrite call_function by apply cell_at_fresh. simpl.
  unfold bind at 1. simpl. cbn [heap] in Hp. set (h1 := heap s ++ _) in *.
  destruct (isPlainObject h1 v) eqn:Hplain; simpl.
  2:{ exists false, (messages s). split; [reflexivity|].
      split; [discriminate|]. intros (H & _). discriminate. }
  rewrite own_keys_values_length.
  destruct (in_bounds _ _ _) eqn:Hb; simpl.
  - unfold own_values in *. unfold isPlainObject in Hplain.
    destruct (cell_at h1 v) as [[props| |]|]; try discriminate.
    destruct (each_valid_decided (interp_at fuel) p func h1 (map snd props))
      with (valid := true) (msgs := messages s) as [msgs' ->].
    { intros x msgs Hx. exact (Hp x Hx msgs). }
    eexists _, msgs'. split; [reflexivity|]. simpl. rewrite forallb_forall.
    apply in_bounds_true in Hb. destruct Hb as [Hmin Hmax].
    split; [intros H; auto | intros (_ & _ & _ & H); exact H].
  - exists false, (messages s). split; [reflexivity|]. split; [discriminate|].
    intros (_ & Hmin & Hmax & _).
    assert (in_bounds (length (own_values h1 v)) (default_min minItems)
              maxItems = true) by (apply in_bounds_true; auto).
    congruence.
Qed.

Lemma hash_accepts_iff_witness :
  exists b msgs',
    call 2 (VRef 2) (VRef 1) hash_example_state'
    = Ret b (mkState (heap hash_example_state') msgs')
    /\ (b = true <->
        isPlainObject (heap hash_example_state') (VRef 1) = true
        /\ (default_min (Some 1%Z)
            <= Z.of_nat (length (own_values (heap hash_example_state')
                                   (VRef 1%nat))))%Z
        /\ (forall mx, Some 2%Z = Some mx ->
              (Z.of_nat (length (own_values (heap hash_example_state')
                                    (VRef 1%nat))) <= mx)%Z)
        /\ (forall x, In x (own_values (heap hash_example_state') (VRef 1)) ->
                      isString x = true)).
Proof.
  apply (hash_accepts_iff 1 (VRef 0) isString (Some 1%Z) (Some 2%Z)
           (VRef 1) (VRef 2) hash_example_state hash_example_state').
  - reflexivity.
  - simpl. intros [H|[H|[]]]; discriminate.
  - simpl. intros x [<-|[<-|[]]] msgs; exists msgs; reflexivity.
Defined.



Lemma every_stops rec func h before x after :
  Forall (fun y => forall msgs, exists msgs',
            i_call rec func y (mkState h msgs) = Ret true (mkState h msgs'))
    before ->
  (forall msgs, exists msgs',
     i_call rec func x (mkState h msgs) = Ret false (mkState h msgs')) ->
  forall msgs, exists msgs',
    every rec (before ++ x :: after) func (mkState h msgs)
    = Ret false (mkState h msgs').
Proof.
  intros Hbefore Hx. induction Hbefore as [|y before Hy _ IH]; intros msgs;
    simpl; rewrite bind_eq.
  - destruct (Hx msgs) as [msgs1 ->]. eauto.
  - destruct (Hy msgs) as [msgs1 ->]. apply IH.
Qed.

Lemma each_valid_throws rec func h before x after e :
  Forall (fun y => exists b, forall msgs, exists msgs',
            i_call rec func y (mkState h msgs) = Ret b (mkState h msgs'))
    before ->
  (forall msgs, exists msgs',
     i_call rec func x (mkState h msgs) = Throw e (mkState h msgs')) ->
  forall valid msgs, exists msgs',
    each_valid rec (before ++ x :: after) func valid (mkState h msgs)
    = Throw e (mkState h msgs').
Proof.
  intros Hbefore Hx. induction Hbefore as [|y before [b Hy] _ IH];
    intros valid msgs; simpl; rewrite bind_eq.
  - destruct (Hx msgs) as [msgs1 ->]. eauto.
  - destruct (Hy msgs) as [msgs1 ->]. apply IH.
Qed.

(** X9: [arr] stops at the first item that fails: the items after it are
    not given to the predicate.  [hash] gives every value to the predicate,
    also after one has failed: an exception raised for a later value is
    raised by [hash] (for an object without an own key [length], which
    lodash could treat as array-like). *)
Theorem arr_stops_and_hash_visits_all
    (fuel : nat) (h : list cell) (f func v x : value) (before after : list value)
    (minItems : Z) (maxItems : option Z) (e : exn) :
  in_bounds (length (before ++ x :: after)) minItems maxItems = true ->
  (is_closure h f (Carr func minItems maxItems) ->
   isArray h v = true -> array_items h v = before ++ x :: after ->
   Forall (fun y => decides fuel h func (fun _ => true) y) before ->
   decides fuel h func (fun _ => false) x ->
   decides (S fuel) h f (fun _ => false) v)
  /\ (is_closure h f (Chash func minItems maxItems) ->
      isPlainObject h v = true -> own_values h v = before ++ x :: after ->
      ~ In "length" (own_keys h v) ->
      Forall (fun y => exists p, decides fuel h func p y) before ->
      (forall msgs, exists msgs',
         call fuel func x (mkState h msgs) = Throw e (mkState h msgs')) ->
      forall msgs, exists msgs',
        call (S fuel) f v (mkState h msgs) = Throw e (mkState h msgs')).
Proof.
  intros Hb. split.
  - intros Hf Harr Hitems Hbefore Hx msgs.
    rewrite (is_closure_call _ _ _ _ _ _ Hf). cbn [apply_closure].
    unfold bind at 1, get_heap. cbn [heap]. rewrite Harr, Hitems, Hb.
    cbn [negb]. now apply every_stops.
  - intros Hf Hplain Hvalues _ Hbefore Hx msgs.
    rewrite (is_closure_call _ _ _ _ _ _ Hf). cbn [apply_closure].
    unfold bind at 1, get_heap. cbn [heap]. rewrite Hplain.
    rewrite own_keys_values_length, Hvalues, Hb. cbn [negb].
    unfold own_values, isPlainObject in *.
    destruct (cell_at h v) as [[props| |]|]; try discriminate.
    rewrite Hvalues. apply each_valid_throws; [|exact Hx].
    clear -Hbefore. induction Hbefore as [|y before [p Hy] _ IH];
      constructor; [|exact IH].
    exists (p y). exact Hy.
Qed.

Lemma arr_stops_and_hash_visits_all_witness :
  decides 3 (heap collections_example_state) (VRef 6) (fun _ => false) (VRef 4)
  /\ forall msgs, exists msgs',
       call 3 (VRef 5) (VRef 3)
         (mkState (heap collections_example_state) msgs)
       = Throw TypeError (mkState (heap collections_example_state) msgs').
Proof.
  split.
  - apply (proj1 (arr_stops_and_hash_visits_all 2
                    (heap collections_example_state) (VRef 6) (VRef 2)
                    (VRef 4) (VStr "s") [] [VNum 1] 0 None TypeError eq_refl)).
    + eexists. split; reflexivity.
    + reflexivity.
    + reflexivity.
    + constructor.
    + intros msgs. exists msgs. reflexivity.
  - apply (proj2 (arr_stops_and_hash_visits_all 2
                    (heap collections_example_state) (VRef 5) (VRef 2)
                    (VRef 3) (VNum 1) [VStr "s"] [] 0 None TypeError eq_refl)).
    + eexists. split; reflexivity.
    + reflexivity.
    + reflexivity.
    + simpl. intros [H|[H|[]]]; discriminate.
    + constructor; [|constructor]. exists (fun _ => false).
      intros msgs. exists msgs. reflexivity.
    + intros msgs. exists msgs. reflexivity.
Defined.

(** ** The conversion of arrays to index-keyed objects *)

Lemma to_uint_not_Nil (n : nat) : Nat.to_uint n <> Decimal.Nil.
Proof.
  intros H. pose proof (DecimalNat.Unsigned.of_to n) as Hn. rewrite H in Hn.
  simpl in Hn. subst n. discriminate.
Qed.

Lemma index_key_inj (i j : nat) : index_key i = index_key j -> i = j.
Proof.
  unfold index_key. intros H.
  apply DecimalNat.Unsigned.to_uint_inj.
  pose proof (NilZero.usu (Nat.to_uint i) (to_uint_not_Nil i)) as Hi.
  pose proof (NilZero.usu (Nat.to_uint j) (to_uint_not_Nil j)) as Hj.
  rewrite H in Hi. congruence.
Qed.

Lemma indexed_from_cons k x rest :
  indexed_from k (x :: rest) = (index_key k, x) :: indexed_from (S k) rest.
Proof.
  unfold indexed_from. rewrite imap_cons. f_equal.
  - now rewrite Nat.add_0_r.
  - apply imap_ext. intros i y _. simpl. now rewrite Nat.add_succ_r.
Qed.

Lemma indexed_indexed_from items : indexed items = indexed_from 0 items.
Proof. reflexivity. Qed.

Lemma get_prop_indexed_from items :
  forall k i, get_prop (indexed_from k items) (index_key (k + i))
              = nth i items VUndefined.
Proof.
  induction items as [|x rest IH]; intros k i.
  - now destruct i.
  - rewrite indexed_from_cons. simpl. destruct i as [|i].
    + rewrite Nat.add_0_r, String.eqb_refl. reflexivity.
    + destruct (String.eqb_spec (index_key k) (index_key (k + S i))) as [E|_].
      * apply index_key_inj in E. lia.
      * rewrite Nat.add_succ_r. apply (IH (S k) i).
Qed.

Lemma keys_indexed_from items :
  forall k, map fst (indexed_from k items)
            = map index_key (seq k (length items)).
Proof.
  induction items as [|x rest IH]; intros k; [reflexivity|].
  rewrite indexed_from_cons. simpl. now rewrite IH.
Qed.

Lemma get_prop_absent props key :
  ~ In key (map fst props) -> get_prop props key = VUndefined.
Proof.
  induction props as [|[k v] rest IH]; simpl; [reflexivity|].
  intros H. destruct (String.eqb_spec k key) as [->|_].
  - exfalso. apply H. now left.
  - apply IH. intros Hin. apply H. now right.
Qed.

(** X10: the object that [recObj] and its array matcher build from an
    array has exactly one key per index, ['' + 0], ['' + 1], ..., in
    order and without repetition; reading the key ['' + i] gives the item
    [i] of the array ([undefined] past the end), and any other key reads
    as [undefined]. *)
Theorem indexed_object_of_array (items : list value) :
  (forall i, get_prop (indexed items) (index_key i) = nth i items VUndefined)
  /\ map fst (indexed items) = map index_key (seq 0 (length items))
  /\ NoDup (map fst (indexed items))
  /\ (forall key, (forall i, i < length items -> key <> index_key i) ->
        get_prop (indexed items) key = VUndefined).
Proof.
  rewrite indexed_indexed_from. split; [|split; [|split]].
  - intros i. apply (get_prop_indexed_from items 0 i).
  - apply keys_indexed_from.
  - rewrite keys_indexed_from. apply NoDup_fmap_2.
    + intros i j. apply index_key_inj.
    + apply NoDup_ListNoDup, seq_NoDup.
  - intros key Hkey. apply get_prop_absent. rewrite keys_indexed_from.
    rewrite in_map_iff. intros (i & <- & Hi). apply in_seq in Hi.
    apply (Hkey i); [lia | reflexivity].
Qed.

Lemma indexed_object_of_array_witness :
  get_prop (indexed [VStr "a"; VNum 5]) "1" = VNum 5
  /\ get_prop (indexed [VStr "a"; VNum 5]) "length" = VUndefined.
Proof.
  destruct (indexed_object_of_array [VStr "a"; VNum 5]) as (Hget & _ & _ & Hno).
  split.
  - exact (Hget 1).
  - apply Hno. intros [|[|i]] Hi; simpl in Hi; try lia; discriminate.
Defined.

(** ** isISODate *)

Lemma length_append (a b : string) :
  String.length (a +:+ b) = String.length a + String.length b.
Proof. induction a as [|x a IH]; sapp; simpl; [reflexivity | now rewrite IH]. Qed.

Lemma digits_length (n : nat) (s : string) : digits n s -> String.length s = n.
Proof.
  revert s. induction n as [|n IH]; intros [|c s]; simpl; try tauto.
  intros [_ H]. now rewrite (IH s H).
Qed.

Lemma iso_timestamp_length (s : string) :
  iso_timestamp s -> String.length s = 24.
Proof.
  intros (year & month & day & hour & minute & second & milli
          & Hy & Hmo & Hd & Hh & Hmi & Hs & Hms & ->).
  rewrite !length_append.
  rewrite (digits_length _ _ Hy), (digits_length _ _ Hmo),
    (digits_length _ _ Hd), (digits_length _ _ Hh), (digits_length _ _ Hmi),
    (digits_length _ _ Hs), (digits_length _ _ Hms).
  reflexivity.
Qed.

Lemma substring_prefix (a b : string) :
  substring 0 (String.length a) (a +:+ b) = a.
Proof.
  induction a as [|x a IH]; sapp; simpl.
  - now destruct b.
  - now rewrite IH.
Qed.

Lemma isISODate_string_length (s : string) :
  isISODate (VStr s) = true -> String.length s = 24 \/ String.length s = 30.
Proof.
  intros H. apply isISODate_string in H.
  destruct H as [H | (stamp & off & Hs & (sign & hh & mm & _ & Hh & Hm & ->) & ->)].
  - left. now apply iso_timestamp_length.
  - right. rewrite length_append, (iso_timestamp_length _ Hs). simpl.
    rewrite !length_append, (digits_length _ _ Hh), (digits_length _ _ Hm).
    reflexivity.
Qed.

(** X11: a string accepted by [isISODate] has 24 characters, or 30 when it
    carries an offset, and then its first 24 characters are accepted on
    their own.  Nothing may follow an accepted string, not even a line
    break, except the six characters of an offset after a string of 24. *)
Theorem isISODate_length (s : string) :
  isISODate (VStr s) = true ->
  (String.length s = 24
   \/ (String.length s = 30
       /\ isISODate (VStr (substring 0 24 s)) = true))
  /\ forall t, isISODate (VStr (s +:+ t)) = true ->
       t = EmptyString \/ (String.length s = 24 /\ String.length t = 6).
Proof.
  intros H. split.
  - apply isISODate_string in H.
    destruct H as [H | (stamp & off & Hs & (sign & hh & mm & _ & Hh & Hm & ->)
                        & ->)].
    + left. now apply iso_timestamp_length.
    + right. split.
      * rewrite length_append, (iso_timestamp_length _ Hs). simpl.
        rewrite !length_append, (digits_length _ _ Hh), (digits_length _ _ Hm).
        reflexivity.
      * rewrite <- (iso_timestamp_length _ Hs), substring_prefix.
        apply isISODate_string. now left.
  - intros t Ht. apply isISODate_string_length in H, Ht.
    rewrite length_append in Ht.
    destruct t as [|c t]; [now left|]. right. simpl in *. lia.
Qed.

Lemma isISODate_length_witness :
  (String.length "2015-04-28T10:00:00.000Z+02:00" = 24
   \/ (String.length "2015-04-28T10:00:00.000Z+02:00" = 30
       /\ isISODate (VStr (substring 0 24 "2015-04-28T10:00:00.000Z+02:00"))
          = true))
  /\ forall t, isISODate (VStr ("2015-04-28T10:00:00.000Z+02:00" +:+ t)) = true ->
       t = EmptyString
       \/ (String.length "2015-04-28T10:00:00.000Z+02:00" = 24
           /\ String.length t = 6).
Proof.
  apply (isISODate_length "2015-04-28T10:00:00.000Z+02:00"). reflexivity.
Defined.

(** ** obj, recObj and validateObject *)

(** X12: without [recursive], [validateObject(template, object, loose)] is
    the predicate [obj(template, loose)] applied to [object] after the
    record list was emptied: same result, same records, same final state,
    for every template and candidate. *)
Theorem validateObject_is_obj_after_clearing
    (fuel : nat) (template object loose recursive f : value) (s : state) :
  truthy recursive = false ->
  is_closure (heap s) f (Cobject template loose) ->
  validateObject fuel template object loose recursive s
  = call (S fuel) f object (mkState (heap s) []).
Proof.
  intros Hrec Hf.
  rewrite (is_closure_call _ _ _ _ _ _ Hf). cbn [apply_closure].
  unfold validateObject, bind, clear_messages, get_heap. cbn [heap].
  destruct (isPlainObject (heap s) object); cbn [negb]; [|reflexivity].
  rewrite Hrec. now destruct (truthy loose).
Qed.

Lemma validateObject_is_obj_after_clearing_witness :
  validateObject 1 (VRef 1) (VRef 2) VUndefined VUndefined
    (mkState (heap matchers_example_state) [InvalidKeys ["a"] []])
  = call 2 (VRef 3) (VRef 2) (mkState (heap matchers_example_state) []).
Proof.
  apply (validateObject_is_obj_after_clearing 1 (VRef 1) (VRef 2) VUndefined
           VUndefined (VRef 3)
           (mkState (heap matchers_example_state) [InvalidKeys ["a"] []])).
  - reflexivity.
  - eexists. split; reflexivity.
Defined.

(** X13: with [recursive], [validateObject] tests the candidate before it
    normalizes the template: for a candidate that is a plain object and a
    template that is not, it throws ['recObj must be called on a plain
    object'] after the records were cleared; for a candidate that is not a
    plain object it returns false even when the template is not a plain
    object either. *)
Theorem validateObject_recursive_template_not_plain
    (fuel : nat) (template object loose recursive : value) (s : state) :
  truthy recursive = true ->
  isPlainObject (heap s) template = false ->
  validateObject (S fuel) template object loose recursive s
  = if isPlainObject (heap s) object
    then Throw (Thrown "recObj must be called on a plain object")
           (mkState (heap s) [])
    else Ret false (mkState (heap s) []).
Proof.
  intros Hrec Ht. unfold validateObject, bind at 1, clear_messages.
  unfold bind at 1, get_heap. cbn [heap].
  destruct (isPlainObject (heap s) object); cbn [negb]; [|reflexivity].
  rewrite Hrec, bind_eq. now rewrite recObj_not_plain.
Qed.

Lemma validateObject_recursive_template_not_plain_witness :
  validateObject 1 (VRef 4) (VRef 2) VUndefined (VBool true)
    matchers_example_state
  = if isPlainObject (heap matchers_example_state) (VRef 2)
    then Throw (Thrown "recObj must be called on a plain object")
           (mkState (heap matchers_example_state) [])
    else Ret false (mkState (heap matchers_example_state) []).
Proof.
  apply (validateObject_recursive_template_not_plain 0 (VRef 4) (VRef 2)
           VUndefined (VBool true) matchers_example_state); reflexivity.
Defined.


(** ** What recObj returns and when it throws *)

Lemma never_throws_bind {A B} (c : M A) (k : A -> M B) s
    (Q1 : A -> state -> Prop) :
  ensures c s Q1 (fun _ => False) ->
  (forall a s1, Q1 a s1 -> never_throws (k a) s1) ->
  never_throws (bind c k) s.
Proof.
  intros Hc Hk. unfold never_throws.
  eapply ensures_bind; [exact Hc|]. intros a s1 H1.
  eapply ensures_weaken; [apply (Hk a s1 H1)| |]; auto.
Qed.

Lemma never_throws_set_member o key v s : never_throws (set_member o key v) s.
Proof.
  unfold never_throws, ensures, set_member. destruct o; auto.
  destruct (cell_at (heap s) (VRef l)) as [[| |]|]; simpl; auto.
Qed.

Section Throws.
Variable rec : interp.
Hypothesis Hrec : forall t loose s,
  throws_only_if_not_plain (i_recObj rec t loose) t s.

Lemma never_throws_recObj_key t loose key s :
  never_throws (recObj_key rec t loose key) s.
Proof.
  unfold recObj_key.
  apply never_throws_bind with (Q1 := fun _ s1 => s1 = s).
  { unfold ensures, get_member.
    destruct (cell_at (heap s) t) as [[| |]|]; reflexivity. }
  intros v s1 ->. unfold never_throws. apply ensures_get_heap.
  destruct (isPlainObject (heap s) v) eqn:Hv.
  - apply never_throws_bind with (Q1 := fun _ _ => True).
    + eapply ensures_weaken; [apply (Hrec v loose s)| |]; auto.
      cbv beta. congruence.
    + intros. apply never_throws_set_member.
  - destruct (isArray (heap s) v); [|exact I].
    apply never_throws_bind with (Q1 := fun _ _ => True); [exact I|].
    intros obj1 s1 _.
    apply never_throws_bind with (Q1 := fun _ _ => True); [exact I|].
    intros. apply never_throws_set_member.
Qed.

Lemma never_throws_recObj_keys t loose keys s :
  never_throws (recObj_keys rec t loose keys) s.
Proof.
  revert s. induction keys as [|key rest IH]; intros s; simpl.
  - exact I.
  - apply never_throws_bind with (Q1 := fun _ _ => True).
    + eapply ensures_weaken; [apply never_throws_recObj_key| |]; auto.
    + intros. apply IH.
Qed.

Lemma throws_recObj_body t loose s :
  throws_only_if_not_plain (recObj_body rec t loose) t s.
Proof.
  unfold throws_only_if_not_plain, recObj_body. apply ensures_get_heap.
  destruct (isPlainObject (heap s) t) eqn:Ht; simpl; [|reflexivity].
  eapply ensures_bind with (Q1 := fun _ _ => True).
  - eapply ensures_weaken; [apply never_throws_recObj_keys| |]; auto.
    cbv beta. contradiction.
  - intros. exact I.
Qed.
End Throws.

Lemma throws_interp (fuel : nat) t loose s :
  throws_only_if_not_plain (recObj fuel t loose) t s.
Proof.
  revert t loose s. induction fuel as [|n IH]; intros t loose s; [exact I|].
  rewrite recObj_S. apply throws_recObj_body. exact IH.
Qed.



(** ** Records are only appended *)

Lemma grows_refl s : grows s s.
Proof. exists []. now rewrite app_nil_r. Qed.

Lemma grows_trans s1 s2 s3 : grows s1 s2 -> grows s2 s3 -> grows s1 s3.
Proof.
  intros [n1 H1] [n2 H2]. exists (n1 ++ n2). now rewrite H2, H1, app_assoc.
Qed.

Lemma grows_same_messages s s' : messages s' = messages s -> grows s s'.
Proof. intros H. exists []. now rewrite app_nil_r. Qed.

Lemma appends_ret {A} (a : A) s : appends (ret a) s.
Proof. apply grows_refl. Qed.

Lemma appends_throw {A} e s : appends (@throw A e) s.
Proof. apply grows_refl. Qed.

Lemma appends_bind {A B} (c : M A) (k : A -> M B) s :
  appends c s -> (forall a s1, appends (k a) s1) -> appends (bind c k) s.
Proof.
  unfold appends. intros Hc Hk.
  apply ensures_bind with (Q1 := fun _ => grows s); [exact Hc|].
  intros a s1 H1. eapply ensures_weaken; [apply Hk| |];
    cbv beta; intros; eapply grows_trans; eassumption.
Qed.

Lemma appends_get_heap {A} (k : list cell -> M A) s :
  appends (k (heap s)) s -> appends (bind get_heap k) s.
Proof. intros H. exact H. Qed.

Lemma appends_emit msg s : appends (emit msg) s.
Proof. exists [msg]. reflexivity. Qed.

Lemma appends_get_member o key s : appends (get_member o key) s.
Proof.
  unfold appends, ensures, get_member.
  destruct (cell_at (heap s) o) as [[| |]|]; apply grows_refl.
Qed.

Lemma appends_set_member o key v s : appends (set_member o key v) s.
Proof.
  unfold appends, ensures, set_member. destruct o; try apply grows_refl.
  destruct (cell_at (heap s) (VRef l)) as [[| |]|]; try apply grows_refl.
  now apply grows_same_messages.
Qed.

Lemma appends_alloc c s : appends (alloc c) s.
Proof. now apply grows_same_messages. Qed.

Lemma appends_new_function name c args extra s :
  appends (new_function name c args extra) s.
Proof. now apply grows_same_messages. Qed.

Section Appends.
Variable rec : interp.
Hypothesis Hrec : appends_spec rec.

Lemma appends_every list func s : appends (every rec list func) s.
Proof.
  revert s. induction list as [|x rest IH]; intros s; simpl.
  - apply appends_ret.
  - apply appends_bind; [apply (appends_call rec Hrec)|].
    intros [] s1; [apply IH | apply appends_ret].
Qed.

Lemma appends_each_valid values func valid s :
  appends (each_valid rec values func valid) s.
Proof.
  revert valid s. induction values as [|x rest IH]; intros valid s; simpl.
  - apply appends_ret.
  - apply appends_bind; [apply (appends_call rec Hrec)|].
    intros b s1. apply IH.
Qed.

Lemma appends_and_loop funcs v s : appends (and_loop rec funcs v) s.
Proof.
  revert s. induction funcs as [|f rest IH]; intros s; simpl.
  - apply appends_ret.
  - apply appends_bind; [apply (appends_call rec Hrec)|].
    intros [] s1; [apply IH | apply appends_ret].
Qed.

Lemma appends_or_loop funcs v s : appends (or_loop rec funcs v) s.
Proof.
  revert s. induction funcs as [|f rest IH]; intros s; simpl.
  - apply appends_ret.
  - apply appends_bind; [apply (appends_call rec Hrec)|].
    intros [] s1; [apply appends_ret | apply IH].
Qed.

Lemma appends_apply_closure c v s : appends (apply_closure rec c v) s.
Proof.
  destruct c; simpl; try apply appends_ret.
  - destruct (isUndefined v); [apply appends_ret|].
    apply (appends_call rec Hrec).
  - destruct (isNull v); [apply appends_ret|].
    apply (appends_call rec Hrec).
  - apply appends_get_heap.
    destruct (isPlainObject (heap s) v); simpl; [|apply appends_ret].
    destruct (truthy loose).
    + apply (appends_similar rec Hrec).
    + apply (appends_congruent rec Hrec).
  - apply appends_get_heap.
    destruct (isArray (heap s) v); simpl; [|apply appends_ret].
    apply appends_bind; [apply appends_alloc|]. intros obj2 s1.
    apply appends_bind; [apply (appends_recObj rec Hrec)|]. intros f s2.
    apply (appends_call rec Hrec).
  - apply appends_get_heap.
    destruct (isArray (heap s) v); simpl; [|apply appends_ret].
    destruct (in_bounds _ _ _); [|apply appends_ret].
    apply appends_every.
  - apply appends_get_heap.
    destruct (isPlainObject (heap s) v); simpl; [|apply appends_ret].
    destruct (in_bounds _ _ _); simpl; [|apply appends_ret].
    destruct (cell_at (heap s) v) as [[| |]|]; try apply appends_ret.
    apply appends_each_valid.
  - apply appends_and_loop.
  - apply appends_or_loop.
  - apply appends_get_heap.
    destruct (isArray (heap s) options);
      [apply appends_ret | apply appends_throw].
Qed.

Lemma appends_call_body f v s : appends (call_body rec f v) s.
Proof.
  unfold call_body. apply appends_get_heap.
  destruct (cell_at (heap s) f) as [[| |fn]|]; try apply appends_throw.
  apply appends_apply_closure.
Qed.

Lemma appends_test_node loose key t o s :
  appends (test_node rec loose key t o) s.
Proof.
  unfold test_node. apply appends_get_heap.
  destruct (isPlainObject (heap s) t).
  - destruct loose.
    + apply (appends_similar rec Hrec).
    + apply (appends_congruent rec Hrec).
  - apply appends_bind.
    + destruct (isFunction (heap s) t); [|apply appends_ret].
      apply (appends_call rec Hrec).
    + intros [] s1; [apply appends_ret|].
      apply appends_bind; [apply appends_emit|]. intros. apply appends_ret.
Qed.

Lemma appends_test_keys loose t o keys s :
  appends (test_keys rec loose t o keys) s.
Proof.
  revert s. induction keys as [|key rest IH]; intros s; simpl.
  - apply appends_ret.
  - apply appends_bind; [apply appends_get_member|]. intros tn s1.
    apply appends_bind; [apply appends_get_member|]. intros on s2.
    apply appends_bind; [apply appends_test_node|].
    intros [] s3; [apply IH | apply appends_ret].
Qed.

Lemma appends_congruence_body loose t o s :
  appends (congruence_body rec loose t o) s.
Proof.
  unfold congruence_body. apply appends_get_heap.
  destruct (isPlainObject (heap s) o); simpl; [|apply appends_ret].
  destruct (key_sets_match _ _ _); simpl.
  - apply appends_test_keys.
  - apply appends_bind; [apply appends_emit|]. intros. apply appends_ret.
Qed.

Lemma appends_recObj_key t loose key s :
  appends (recObj_key rec t loose key) s.
Proof.
  unfold recObj_key.
  apply appends_bind; [apply appends_get_member|]. intros v s1.
  apply appends_get_heap.
  destruct (isPlainObject (heap s1) v).
  - apply appends_bind; [apply (appends_recObj rec Hrec)|]. intros f s2.
    apply appends_set_member.
  - destruct (isArray (heap s1) v); [|apply appends_ret].
    apply appends_bind; [apply appends_alloc|]. intros obj1 s2.
    apply appends_bind; [apply appends_new_function|]. intros f s3.
    apply appends_set_member.
Qed.

Lemma appends_recObj_keys t loose keys s :
  appends (recObj_keys rec t loose keys) s.
Proof.
  revert s. induction keys as [|key rest IH]; intros s; simpl.
  - apply appends_ret.
  - apply appends_bind; [apply appends_recObj_key|]. intros ? s1. apply IH.
Qed.

Lemma appends_recObj_body t loose s : appends (recObj_body rec t loose) s.
Proof.
  unfold recObj_body. apply appends_get_heap.
  destruct (isPlainObject (heap s) t); simpl; [|apply appends_throw].
  apply appends_bind; [apply appends_recObj_keys|].
  intros ? s1. apply appends_new_function.
Qed.

Lemma appends_step : appends_spec (step rec).
Proof.
  split; simpl; intros.
  - apply appends_call_body.
  - apply appends_congruence_body.
  - apply appends_congruence_body.
  - apply appends_recObj_body.
Qed.
End Appends.

Lemma appends_bottom : appends_spec bottom.
Proof. split; intros; exact I. Qed.

Lemma appends_interp (fuel : nat) : appends_spec (interp_at fuel).
Proof.
  induction fuel as [|n IH]; [apply appends_bottom | now apply appends_step].
Qed.

(** X15: records are only ever appended: a call of a predicate, whatever
    it is built from, leaves the records that were there in place and in
    order and adds its own after them, also when it throws.  The one place
    that removes records is the start of [validateObject]. *)
Theorem predicate_calls_only_append_records
    (fuel : nat) (f v : value) (s s' : state) :
  final_state (call fuel f v s) = Some s' ->
  exists new, getMessages s' = getMessages s ++ new.
Proof.
  intros H. pose proof (appends_call _ (appends_interp fuel) f v s) as Ha.
  unfold appends, ensures in Ha. unfold call in H.
  destruct (i_call (interp_at fuel) f v s); simpl in H; inversion H; subst;
    exact Ha.
Qed.

Lemma predicate_calls_only_append_records_witness :
  exists new,
    getMessages (mkState (heap matchers_example_state)
                   [InvalidKeys ["k"] []; InvalidKeys ["a"] ["0"]])
    = getMessages (mkState (heap matchers_example_state) [InvalidKeys ["k"] []])
      ++ new.
Proof.
  apply (predicate_calls_only_append_records 2 (VRef 3) (VRef 5)
           (mkState (heap matchers_example_state) [InvalidKeys ["k"] []])).
  reflexivity.
Defined.

(** ** recObj normalizes once *)

Lemma settles_refl s : settles s s.
Proof.
  split; [apply evolves_refl|]. intros l props props' key H H'.
  left. pose proof (eq_trans (eq_sym H) H') as [= ->]. reflexivity.
Qed.

Lemma settles_trans s1 s2 s3 : settles s1 s2 -> settles s2 s3 -> settles s1 s3.
Proof.
  intros [He12 Hr12] [He23 Hr23]. split; [eapply evolves_trans; eassumption|].
  intros l props props3 key H1 H3.
  destruct (He12 l _ H1) as (props2 & H2 & _).
  destruct (Hr23 l props2 props3 key H2 H3) as [E|F]; [|now right].
  rewrite E. destruct (Hr12 l props props2 key H1 H2) as [E'|F]; [now left|].
  right. now apply (evolves_kinds s2 s3 _ He23).
Qed.

Lemma settles_alloc_heap s s' c : heap s' = heap s ++ [c] -> settles s s'.
Proof.
  intros E. split; [now apply (evolves_alloc_heap _ _ c)|].
  intros l props props' key H H'. left. rewrite E in H'.
  assert ((heap s ++ [c]) !! l = Some (Obj props)) as H2
    by now apply lookup_app_l_Some.
  pose proof (eq_trans (eq_sym H2) H') as [= ->]. reflexivity.
Qed.

Lemma settled_evolves s s' v :
  evolves s s' -> settled (heap s) v -> settled (heap s') v.
Proof.
  intros He [Hlit Hsound]. unfold settled, is_literal, sound in *.
  destruct v as [| | | | |l]; try (split; [reflexivity | exact I]).
  destruct Hsound as [c Hc]. pose proof (He l c Hc) as H.
  unfold isPlainObject, isArray, cell_at in *. rewrite Hc in Hlit.
  destruct c as [props|items|fn]; try discriminate.
  rewrite H. split; [reflexivity | eauto].
Qed.

Lemma function_settled h v : isFunction h v = true -> settled h v.
Proof.
  unfold settled, is_literal, isFunction, isPlainObject, isArray, sound, cell_at.
  destruct v; try discriminate.
  destruct (h !! l) as [[| |]|] eqn:E; try discriminate. intros _.
  split; [reflexivity | eauto].
Qed.

Lemma get_prop_set_prop props key v :
  get_prop (set_prop props key v) key = v.
Proof.
  induction props as [|[k w] rest IH]; simpl.
  - now rewrite String.eqb_refl.
  - destruct (String.eqb k key) eqn:E; simpl; rewrite E; auto.
Qed.

Lemma get_prop_set_prop_other props key key' v :
  key <> key' -> get_prop (set_prop props key v) key' = get_prop props key'.
Proof.
  intros Hne. induction props as [|[k w] rest IH]; simpl.
  - destruct (String.eqb_spec key key'); [contradiction | reflexivity].
  - destruct (String.eqb_spec k key) as [->|Hk]; simpl.
    + destruct (String.eqb_spec key key'); [contradiction | reflexivity].
    + now rewrite IH.
Qed.

(** Writing a function into a key that the object has. *)
Lemma settles_set_member o key f s :
  In key (own_keys (heap s) o) -> isFunction (heap s) f = true ->
  ensures (set_member o key f) s
    (fun _ s' => settles s s' /\ isFunction (heap s') f = true
                 /\ (isPlainObject (heap s) o = true -> key_settled o s' key))
    (fun _ => True).
Proof.
  intros Hkey Hf.
  pose proof (advances_set_member o key f s Hkey) as Hadv.
  unfold advances, ensures, set_member, own_keys in *.
  destruct o as [| | | | |l]; try contradiction.
  unfold isPlainObject. simpl in *.
  destruct (heap s !! l) as [[props| |]|] eqn:Hl; try contradiction.
  simpl in *.
  assert (l < length (heap s)) as Hlt by (eapply lookup_lt_Some; exact Hl).
  assert (isFunction (<[l:=Obj (set_prop props key f)]> (heap s)) f = true)
    as Hf'.
  { unfold isFunction, cell_at in *. destruct f as [| | | | |lf]; try discriminate.
    destruct (decide (l = lf)) as [<-|Hne].
    - rewrite Hl in Hf. discriminate.
    - now rewrite list_lookup_insert_ne. }
  split; [split; [exact Hadv|]|split; [exact Hf'|]].
  - intros l' p p' k H H'. simpl in H'.
    destruct (decide (l = l')) as [<-|Hne].
    + rewrite list_lookup_insert_eq in H' by exact Hlt.
      injection H' as <-. rewrite Hl in H. injection H as <-.
      destruct (String.eqb_spec key k) as [<-|Hk].
      * right. now rewrite get_prop_set_prop.
      * left. now apply get_prop_set_prop_other.
    + rewrite list_lookup_insert_ne in H' by exact Hne. left.
      pose proof (eq_trans (eq_sym H) H') as [= ->]. reflexivity.
  - intros _. exists (set_prop props key f). split.
    + now apply list_lookup_insert_eq.
    + rewrite get_prop_set_prop. now apply function_settled.
Qed.

Lemma normalizes_new_function name c args extra s :
  ensures (new_function name c args extra) s (normalizes s) (fun _ => True).
Proof.
  unfold ensures. rewrite new_function_eq. split.
  - eapply settles_alloc_heap. reflexivity.
  - unfold isFunction. cbn [heap]. now rewrite cell_at_fresh.
Qed.

Section Normalizes.
Variable rec : interp.
Hypothesis Hrec : forall t loose s,
  ensures (i_recObj rec t loose) s (normalizes s) (fun _ => True).

(** One key of the loop: the key is settled afterwards, unless it held
    a dangling reference. *)
Lemma normalizes_recObj_key t loose key props s :
  cell_at (heap s) t = Some (Obj props) -> In key (map fst props) ->
  ensures (recObj_key rec t loose key) s
    (fun _ s' => settles s s'
                 /\ (sound (heap s) (get_prop props key) -> key_settled t s' key))
    (fun _ => True).
Proof.
  intros Ht Hkey. unfold recObj_key.
  assert (isPlainObject (heap s) t = true) as Hplain
    by (unfold isPlainObject; now rewrite Ht).
  assert (forall f s1, settles s s1 -> isFunction (heap s1) f = true ->
            ensures (set_member t key f) s1
              (fun _ s' => settles s s'
                 /\ (sound (heap s) (get_prop props key) ->
                     key_settled t s' key))
              (fun _ => True)) as Hset.
  { intros f s1 [He Hr] Hf.
    destruct (proj1 (evolves_kinds s s1 t He) Hplain) as [Hplain1 Hkeys1].
    eapply ensures_weaken; [apply settles_set_member| |auto].
    - rewrite Hkeys1. unfold own_keys. now rewrite Ht.
    - exact Hf.
    - cbv beta. intros ? s2 (Hs & _ & Hk). split.
      + eapply settles_trans; [split; eassumption | exact Hs].
      + intros _. now apply Hk. }
  apply ensures_bind with (Q1 := fun v s1 => s1 = s /\ v = get_prop props key).
  { unfold ensures. now rewrite (get_member_object t key s props). }
  intros v s1 [-> ->]. apply ensures_get_heap.
  destruct (isPlainObject (heap s) (get_prop props key)) eqn:Hv.
  - eapply ensures_bind; [apply Hrec|]. intros f s1 [Hs Hf]. now apply Hset.
  - destruct (isArray (heap s) (get_prop props key)) eqn:Ha.
    + apply ensures_bind with (Q1 := fun _ s1 => settles s s1).
      { eapply settles_alloc_heap. reflexivity. }
      intros obj1 s1 Hs1.
      apply ensures_bind with (Q1 := normalizes s1).
      { apply normalizes_new_function. }
      intros f s2 [Hs2 Hf]. apply Hset; [|exact Hf].
      eapply settles_trans; eassumption.
    + split; [apply settles_refl|]. intros Hsound.
      exists props. split; [exact Ht|].
      split; [|exact Hsound]. unfold is_literal. now rewrite Hv, Ha.
Qed.

Lemma key_settled_settles t s s' key :
  settles s s' -> key_settled t s key -> key_settled t s' key.
Proof.
  intros [He Hr] (props & Ht & Hset).
  destruct t as [| | | | |l]; try discriminate. simpl in Ht.
  destruct (He l _ Ht) as (props' & Ht' & _).
  exists props'. split; [exact Ht'|].
  destruct (Hr l props props' key Ht Ht') as [->|Hf].
  - now apply (settled_evolves s s').
  - now apply function_settled.
Qed.

Lemma sound_settles t s s' props props' :
  settles s s' ->
  cell_at (heap s) t = Some (Obj props) ->
  cell_at (heap s') t = Some (Obj props') ->
  (forall key, sound (heap s) (get_prop props key)) ->
  forall key, sound (heap s') (get_prop props' key).
Proof.
  intros [He Hr] Ht Ht' Hsound key.
  destruct t as [| | | | |l]; try discriminate. simpl in Ht, Ht'.
  destruct (Hr l props props' key Ht Ht') as [->|Hf].
  - specialize (Hsound key). unfold sound in *.
    destruct (get_prop props key) as [| | | | |l0]; auto.
    destruct Hsound as [c Hc]. pose proof (He l0 c Hc) as H.
    destruct c; [destruct H as (? & H & _)| |]; eauto.
  - now apply function_settled.
Qed.

Lemma normalizes_recObj_keys t loose keys :
  forall s props,
    cell_at (heap s) t = Some (Obj props) ->
    (forall k, In k keys -> In k (map fst props)) ->
    ensures (recObj_keys rec t loose keys) s
      (fun _ s' => settles s s'
                   /\ ((forall key, sound (heap s) (get_prop props key)) ->
                       forall k, In k keys -> key_settled t s' k))
      (fun _ => True).
Proof.
  induction keys as [|key rest IH]; intros s props Ht Hkeys; simpl.
  - split; [apply settles_refl | contradiction].
  - eapply ensures_bind.
    { apply (normalizes_recObj_key t loose key props s Ht).
      apply Hkeys. now left. }
    cbv beta. intros ? s1 [Hs1 Hdone].
    destruct t as [| | | | |l]; try discriminate. simpl in Ht.
    destruct (proj1 Hs1 l _ Ht) as (props1 & Ht1 & Hk1).
    eapply ensures_weaken; [apply (IH s1 props1)| |auto].
    + exact Ht1.
    + intros k Hk. rewrite Hk1. apply Hkeys. now right.
    + cbv beta. intros ? s2 [Hs2 Hrest]. split.
      * eapply settles_trans; eassumption.
      * intros Hsound k [<-|Hk].
        -- apply (key_settled_settles (VRef l) s1 s2); auto.
        -- apply Hrest; [|exact Hk].
           now apply (sound_settles (VRef l) s s1 props props1).
Qed.

Lemma normalizes_recObj_body t loose s :
  ensures (recObj_body rec t loose) s (normalizes s) (fun _ => True).
Proof.
  unfold recObj_body. apply ensures_get_heap.
  destruct (isPlainObject (heap s) t) eqn:Hplain; simpl; [|exact I].
  unfold isPlainObject, own_keys in *.
  destruct (cell_at (heap s) t) as [[props| |]|] eqn:Ht; try discriminate.
  eapply ensures_bind; [apply (normalizes_recObj_keys t loose _ s props); auto|].
  cbv beta. intros ? s1 [Hs1 _].
  eapply ensures_weaken; [apply normalizes_new_function| |auto].
  intros f s2 [Hs2 Hf]. split; [|exact Hf].
  eapply settles_trans; eassumption.
Qed.
End Normalizes.

Lemma normalizes_interp (fuel : nat) t loose s :
  ensures (recObj fuel t loose) s (normalizes s) (fun _ => True).
Proof.
  revert t loose s. induction fuel as [|n IH]; intros t loose s; [exact I|].
  rewrite recObj_S. apply normalizes_recObj_body. exact IH.
Qed.

Lemma get_prop_NoDup props key v :
  NoDup (map fst props) -> In (key, v) props -> get_prop props key = v.
Proof.
  induction props as [|[k w] rest IH]; simpl; [contradiction|].
  intros Hnd [H|H].
  - injection H as -> ->. now rewrite String.eqb_refl.
  - apply NoDup_cons in Hnd as [Hk Hnd].
    destruct (String.eqb_spec k key) as [->|_]; [|now apply IH].
    exfalso. apply Hk. apply list_elem_of_In, in_map_iff.
    exists (key, v). auto.
Qed.



(** ** Descriptions of key-set records *)

Lemma difference_spec (a b : list string) (k : string) :
  In k (difference a b) <-> In k a /\ ~ In k b.
Proof.
  unfold difference. rewrite filter_In, negb_true_iff.
  split; intros [Ha Hb]; split; auto.
  - intros Hin. apply existsb_eqb_In in Hin. congruence.
  - destruct (existsb (String.eqb k) b) eqn:E; [|reflexivity].
    apply existsb_eqb_In in E. contradiction.
Qed.

(** X17: [getInvalidDescription] returns [null] exactly when no record is
    retained.  When the first retained record is a key-set record, the
    description depends on nothing but that record: it is built from the
    two key lists whatever the store, and lists as unexpected the keys of
    the candidate that the template lacks and as missing the keys of the
    template that the candidate lacks. *)
Theorem description_of_key_records
    (JSON_stringify : list cell -> value -> string) (fuel : nat) (s : state) :
  (getInvalidDescription JSON_stringify fuel s = Some None
   <-> getMessages s = [])
  /\ (forall templateKeys objectKeys rest,
        getMessages s = InvalidKeys templateKeys objectKeys :: rest ->
        getInvalidDescription JSON_stringify fuel s
        = Some (Some ("invalid keys, expecting [" +:+ join "," templateKeys
                      +:+ "] but got [" +:+ join "," objectKeys
                      +:+ "] (unexpected: ["
                      +:+ join "," (difference objectKeys templateKeys)
                      +:+ "]) (missing: ["
                      +:+ join "," (difference templateKeys objectKeys)
                      +:+ "])"))
        /\ (forall k, In k (difference objectKeys templateKeys)
                      <-> In k objectKeys /\ ~ In k templateKeys)
        /\ (forall k, In k (difference templateKeys objectKeys)
                      <-> In k templateKeys /\ ~ In k objectKeys)).
Proof.
  unfold getInvalidDescription. split.
  - destruct (getMessages s) as [|m rest]; [tauto|].
    destruct (describe JSON_stringify fuel (heap s) m); split; discriminate.
  - intros templateKeys objectKeys rest ->. split; [reflexivity|].
    split; intros k; apply difference_spec.
Qed.

Lemma description_of_key_records_witness :
  getInvalidDescription (fun _ _ => EmptyString) 0
    (mkState [] [InvalidKeys ["a"; "b"] ["b"; "c"]])
  = Some (Some "invalid keys, expecting [a,b] but got [b,c] (unexpected: [c]) (missing: [a])").
Proof.
  apply (proj2 (description_of_key_records (fun _ _ => EmptyString) 0
                  (mkState [] [InvalidKeys ["a"; "b"] ["b"; "c"]]))
           ["a"; "b"] ["b"; "c"] []).
  reflexivity.
Defined.
